(** * A shallow embedding of [alloc.c] (free-list allocator over [sbrk])

    The C functions of [src/src/alloc.c] are transcribed as Rocq functions
    over an explicit allocator state.  The target is an LP64 machine:
    [size_t] and pointers are 64-bit unsigned quantities (kept as [Z] with
    the wrap-around written out), [int] is 32-bit.

    Block headers are only ever accessed through the two fields of a
    [free_block *], so the store is kept per field: one finite map for the
    [size] fields, one for the [next] fields (both keyed by the header's
    address) and one for the bytes written by [memset] and [memcpy].  A
    byte written over a recorded header field changes that field, and a
    byte read from one comes from the field.  Loops over the free list take
    a fuel argument, since a chain read from raw memory may be cyclic.

    The [printf] calls of [tumalloc] only trace and are left out. *)

From Stdlib Require Import ZArith List Lia Bool.
From stdpp Require Import base option list gmap.

Local Open Scope Z_scope.

(** ** Machine integers *)

Definition SIZE_MAX : Z := 2 ^ 64 - 1.

(** Conversion to [size_t] (reduction modulo 2^64). *)
Definition size_t (x : Z) : Z := x mod 2 ^ 64.

(** Conversion of a [size_t] to [int], as done when [tumalloc] passes its
    aligned size to [split]'s [int size] parameter. *)
Definition to_int (x : Z) : Z := (x + 2 ^ 31) mod 2 ^ 32 - 2 ^ 31.

(** Conversion of a [size_t] to [intptr_t], the argument type of [sbrk]. *)
Definition to_intptr (x : Z) : Z := (x + 2 ^ 63) mod 2 ^ 64 - 2 ^ 63.

Definition NULL : Z := 0.

(** Pointer arithmetic on [char *]. *)
Definition ptr_add (p n : Z) : Z := (p + n) mod 2 ^ 64.

(** [#define ALIGNMENT 16] *)
Definition ALIGNMENT : Z := 16.

(** Modelled from the spec: [alloc.h], which declares [free_block], is not
    part of the sources.  The spec gives a block header the two attributes
    [size] and [next]; on LP64 that is a [size_t] followed by a pointer, so
    [sizeof(free_block)] is 16. *)
Definition header_size : Z := 16.

(** ** Allocator state *)

Record state : Type := mkState {
  size_of : gmap Z Z;      (** [b->size] for a header at address [b] *)
  next_of : gmap Z Z;      (** [b->next] for a header at address [b] *)
  byte_at : gmap Z Z;      (** payload bytes *)
  HEAD : Z;                (** [static free_block *HEAD] *)
  next_fit_ptr : Z;        (** [static free_block *next_fit_ptr] *)
  program_break : Z;       (** the current program break *)
  break_limit : Z          (** the highest break the OS will grant *)
}.

Definition load_size (s : state) (b : Z) : Z := default 0 (size_of s !! b).
Definition load_next (s : state) (b : Z) : Z := default 0 (next_of s !! b).
Definition load_byte (s : state) (a : Z) : Z := default 0 (byte_at s !! a).

Definition store_size (s : state) (b v : Z) : state :=
  mkState (<[b := v]> (size_of s)) (next_of s) (byte_at s)
          (HEAD s) (next_fit_ptr s) (program_break s) (break_limit s).

Definition store_next (s : state) (b v : Z) : state :=
  mkState (size_of s) (<[b := v]> (next_of s)) (byte_at s)
          (HEAD s) (next_fit_ptr s) (program_break s) (break_limit s).

Definition store_byte (s : state) (a v : Z) : state :=
  mkState (size_of s) (next_of s) (<[a := v]> (byte_at s))
          (HEAD s) (next_fit_ptr s) (program_break s) (break_limit s).

Definition set_HEAD (s : state) (p : Z) : state :=
  mkState (size_of s) (next_of s) (byte_at s)
          p (next_fit_ptr s) (program_break s) (break_limit s).

Definition set_next_fit_ptr (s : state) (p : Z) : state :=
  mkState (size_of s) (next_of s) (byte_at s)
          (HEAD s) p (program_break s) (break_limit s).

Definition set_program_break (s : state) (p : Z) : state :=
  mkState (size_of s) (next_of s) (byte_at s)
          (HEAD s) (next_fit_ptr s) p (break_limit s).

(** The allocator before its first call: both statics are [NULL]. *)
Definition initial_state (brk limit : Z) : state :=
  mkState ∅ ∅ ∅ NULL NULL brk limit.

(** ** Outcomes *)

Inductive fault : Type := OutOfFuel | DivisionByZero | OutOfArena.

Inductive result (A : Type) : Type :=
| Ret (a : A)
| Fault (f : fault).
Arguments Ret {A} a.
Arguments Fault {A} f.

Global Instance result_ret : MRet result := fun A a => Ret a.
Global Instance result_bind : MBind result := fun A B k r =>
  match r with
  | Ret a => k a
  | Fault f => Fault f
  end.

(** Unsigned division as C defines it: dividing by zero has no value. *)
Definition c_div (a b : Z) : result Z :=
  if b =? 0 then Fault DivisionByZero else Ret (a / b).

(** ** The environment: [sbrk] *)

(** The value [(void * )-1]. *)
Definition SBRK_FAILED : Z := 2 ^ 64 - 1.

(** [sbrk(incr)] moves the break by the signed increment and returns the
    previous break, or [(void * )-1] when the new break is refused. *)
Definition sbrk (s : state) (incr : Z) : Z * state :=
  let new_break := program_break s + to_intptr incr in
  if (0 <=? new_break) && (new_break <=? break_limit s)
  then (program_break s, set_program_break s new_break)
  else (SBRK_FAILED, s).

(** ** [split] *)

Definition split (s : state) (block size : Z) : Z * state :=
  if load_size s block <? size_t (size_t size + header_size) then (NULL, s)
  else
    let new_block := ptr_add (ptr_add block size) header_size in
    let s1 := store_size s new_block
                (size_t (size_t (load_size s block - size_t size) - header_size)) in
    let s2 := store_next s1 new_block (load_next s1 block) in
    let s3 := store_size s2 block (size_t size) in
    (block, s3).

(** ** Neighbour search *)

(** Address one past the block: [(char * )b + b->size + sizeof(free_block)]. *)
Definition block_end (s : state) (b : Z) : Z :=
  ptr_add (ptr_add b (load_size s b)) header_size.

Fixpoint find_prev_from (fuel : nat) (s : state) (curr block : Z) : result Z :=
  match fuel with
  | O => Fault OutOfFuel
  | S fuel' =>
      if curr =? NULL then Ret NULL
      else if block_end s curr =? block then Ret curr
      else find_prev_from fuel' s (load_next s curr) block
  end.

Definition find_prev (fuel : nat) (s : state) (block : Z) : result Z :=
  find_prev_from fuel s (HEAD s) block.

Fixpoint find_next_from (fuel : nat) (s : state) (curr block_end : Z) : result Z :=
  match fuel with
  | O => Fault OutOfFuel
  | S fuel' =>
      if curr =? NULL then Ret NULL
      else if curr =? block_end then Ret curr
      else find_next_from fuel' s (load_next s curr) block_end
  end.

Definition find_next (fuel : nat) (s : state) (block : Z) : result Z :=
  find_next_from fuel s (HEAD s) (block_end s block).

(** ** [remove_free_block] *)

(** The [while (curr != NULL)] loop of [remove_free_block]. *)
Fixpoint remove_from (fuel : nat) (s : state) (curr block : Z) : result state :=
  match fuel with
  | O => Fault OutOfFuel
  | S fuel' =>
      if curr =? NULL then Ret s
      else if load_next s curr =? block
           then Ret (store_next s curr (load_next s block))
           else remove_from fuel' s (load_next s curr) block
  end.

Definition remove_free_block (fuel : nat) (s : state) (block : Z) : result state :=
  let curr := HEAD s in
  if curr =? block then Ret (set_HEAD s (load_next s block))
  else remove_from fuel s curr block.

(** ** [coalesce] *)

Definition absorb_into_prev (s : state) (prev block : Z) : Z * state :=
  if prev =? NULL then (block, s)
  else if block_end s prev =? block then
    let s1 := store_size s prev
                (size_t (load_size s prev + size_t (load_size s block + header_size))) in
    let s2 := if load_next s1 prev =? block
              then store_next s1 prev (load_next s1 block) else s1 in
    (prev, s2)
  else (block, s).

Definition absorb_next (s : state) (block next : Z) : state :=
  if next =? NULL then s
  else if block_end s block =? next then
    let s1 := store_size s block
                (size_t (load_size s block + size_t (load_size s next + header_size))) in
    store_next s1 block (load_next s1 next)
  else s.

Definition coalesce (fuel : nat) (s : state) (block : Z) : result (Z * state) :=
  if block =? NULL then Ret (NULL, s)
  else
    prev ← find_prev fuel s block;
    next ← find_next fuel s block;
    let '(block1, s1) := absorb_into_prev s prev block in
    let s2 := absorb_next s1 block1 next in
    Ret (block1, s2).

(** ** [do_alloc] *)

Definition do_alloc (fuel : nat) (s : state) (size : Z) : result (Z * state) :=
  let '(block, s0) := sbrk s (size_t (size + header_size)) in
  if block =? SBRK_FAILED then Ret (NULL, s0)
  else
    let new_block := block in
    let s1 := store_size s0 new_block size in
    let s2 := store_next s1 new_block (HEAD s1) in
    let s3 := set_HEAD s2 new_block in
    '(merged, s4) ← coalesce fuel s3 (HEAD s3);
    Ret (ptr_add new_block header_size, set_HEAD s4 merged).

(** ** [tumalloc] *)

(** [size = (size + ALIGNMENT - 1) & ~(ALIGNMENT - 1)], in [size_t]. *)
Definition align_up (size : Z) : Z :=
  Z.land (size_t (size + ALIGNMENT - 1)) (size_t (Z.lnot (ALIGNMENT - 1))).

(** The body of the [if (curr->size >= size)] branch of the search loop. *)
Definition take_block (s : state) (size curr prev : Z) : Z * state :=
  let s1 := if size_t (size + header_size) <? load_size s curr
            then snd (split s curr (to_int size)) else s in
  let s2 := if prev =? NULL
            then set_HEAD s1 (load_next s1 curr)
            else store_next s1 prev (load_next s1 curr) in
  let s3 := set_next_fit_ptr s2
              (if load_next s2 curr =? NULL then HEAD s2 else load_next s2 curr) in
  (ptr_add curr header_size, s3).

(** The [while (curr != NULL)] loop; [None] means the loop ran off the end
    of the chain without returning. *)
Fixpoint search (fuel : nat) (s : state) (size curr prev : Z)
  : result (option (Z * state)) :=
  match fuel with
  | O => Fault OutOfFuel
  | S fuel' =>
      if curr =? NULL then Ret None
      else if size <=? load_size s curr then Ret (Some (take_block s size curr prev))
      else search fuel' s size (load_next s curr) curr
  end.

(** The code after the loop: fresh memory from the OS. *)
Definition extend (s : state) (size : Z) : Z * state :=
  let '(new_block, s0) := sbrk s (size_t (size + header_size)) in
  if new_block =? SBRK_FAILED then (NULL, s0)
  else
    let s1 := store_size s0 new_block size in
    let s2 := store_next s1 new_block (HEAD s1) in
    let s3 := set_next_fit_ptr s2 NULL in
    (ptr_add new_block header_size, s3).

Definition search_start (s : state) : Z :=
  if next_fit_ptr s =? NULL then HEAD s else next_fit_ptr s.

Definition tumalloc (fuel : nat) (s : state) (size : Z) : result (Z * state) :=
  let size := align_up size in
  let curr := search_start s in
  let prev := NULL in
  found ← search fuel s size curr prev;
  match found with
  | Some r => Ret r
  | None => Ret (extend s size)
  end.

(** ** Bytes and header fields share the memory *)

(** Modelled from the spec: [alloc.h] is not part of the sources.  With the
    header's two attributes in the order the spec gives them, on a
    little-endian LP64 machine the [size] field occupies the bytes 0..7 of
    a header and the [next] field the bytes 8..15, least significant byte
    first. *)
Definition size_offset : Z := 0.
Definition next_offset : Z := 8.

(** Byte [k] of a field value, and the value with that byte replaced. *)
Definition field_byte (v k : Z) : Z := (v / 256 ^ k) mod 256.

Definition set_field_byte (v k b : Z) : Z := v + (b - field_byte v k) * 256 ^ k.

(** The header whose field at offset [off] has its byte [k] at address [a]. *)
Definition field_owner (a off k : Z) : Z := ptr_add a (- (off + k)).

(** A byte written at [a] changes every recorded field that covers [a]. *)
Definition patch_fields (m : gmap Z Z) (a off b : Z) : gmap Z Z :=
  foldl (fun m' k => alter (fun v => set_field_byte v k b) (field_owner a off k) m')
        m (seqZ 0 8).

(** What [patch_fields] does to the value recorded for one header. *)
Definition patched (a off b h : Z) (ks : list Z) (v : Z) : Z :=
  foldl (fun v' k => if decide (field_owner a off k = h)
                     then set_field_byte v' k b else v') v ks.

(** The byte a recorded field holds at [a], if one covers [a]. *)
Definition field_view (m : gmap Z Z) (a off : Z) : option Z :=
  foldr (fun k acc => match m !! field_owner a off k with
                      | Some v => Some (field_byte v k)
                      | None => acc
                      end)
        None (seqZ 0 8).

(** The byte found at address [a]. *)
Definition byte_of (s : state) (a : Z) : Z :=
  match field_view (size_of s) a size_offset with
  | Some b => b
  | None =>
      match field_view (next_of s) a next_offset with
      | Some b => b
      | None => load_byte s a mod 256
      end
  end.

(** Storing the byte [b] at address [a]. *)
Definition write_byte (s : state) (a b : Z) : state :=
  let s1 := store_byte s a b in
  mkState (patch_fields (size_of s1) a size_offset b)
          (patch_fields (next_of s1) a next_offset b)
          (byte_at s1)
          (HEAD s1) (next_fit_ptr s1) (program_break s1) (break_limit s1).

(** The program break is taken as the end of the memory that can be
    touched: an access at or above it does not return. *)
Definition in_arena (s : state) (a : Z) : bool :=
  (0 <=? a) && (a <? program_break s).

(** ** [memset], [memcpy] *)

Definition memset (s : state) (ptr c n : Z) : result state :=
  foldl (fun r i =>
           st ← r;
           if in_arena st (ptr_add ptr i)
           then Ret (write_byte st (ptr_add ptr i) (c mod 256))
           else Fault OutOfArena)
        (Ret s) (seqZ 0 n).

(** The source bytes are read from the state before the copy (the regions
    of a [memcpy] may not overlap). *)
Definition memcpy (s : state) (dst src n : Z) : result state :=
  foldl (fun r i =>
           st ← r;
           if in_arena st (ptr_add src i) && in_arena st (ptr_add dst i)
           then Ret (write_byte st (ptr_add dst i) (byte_of s (ptr_add src i)))
           else Fault OutOfArena)
        (Ret s) (seqZ 0 n).

(** ** [tufree] *)

Definition tufree (s : state) (ptr : Z) : state := s.

(** ** [tucalloc] *)

Definition tucalloc (fuel : nat) (s : state) (num size : Z) : result (Z * state) :=
  q ← c_div SIZE_MAX size;
  if q <? num then Ret (NULL, s)
  else
    let total_size := size_t (num * size) in
    '(ptr, s1) ← tumalloc fuel s total_size;
    if ptr =? NULL then Ret (ptr, s1)
    else s2 ← memset s1 ptr 0 total_size; Ret (ptr, s2).

(** ** [turealloc] *)

Definition turealloc (fuel : nat) (s : state) (ptr new_size : Z) : result (Z * state) :=
  if ptr =? NULL then tumalloc fuel s new_size
  else
    let block := ptr_add ptr (- header_size) in
    if new_size <=? load_size s block then Ret (ptr, s)
    else
      '(new_ptr, s1) ← tumalloc fuel s new_size;
      if new_ptr =? NULL then Ret (new_ptr, s1)
      else
        s2 ← memcpy s1 new_ptr ptr (load_size s1 block);
        Ret (new_ptr, tufree s2 ptr).

(** ** Views of the free list used in the statements *)

(** [chain s p l]: following [next] from [p] visits exactly the blocks [l]
    and then reaches [NULL]. *)
Fixpoint chain (s : state) (p : Z) (l : list Z) : Prop :=
  match l with
  | [] => p = NULL
  | b :: l' => p = b /\ b <> NULL /\ chain s (load_next s b) l'
  end.

(** The same walk, executable. *)
Fixpoint walk (fuel : nat) (s : state) (p : Z) : result (list Z) :=
  match fuel with
  | O => Fault OutOfFuel
  | S fuel' =>
      if p =? NULL then Ret []
      else l ← walk fuel' s (load_next s p); Ret (p :: l)
  end.

Definition free_list (fuel : nat) (s : state) : result (list Z) :=
  walk fuel s (HEAD s).

(** The block on which the search loop of [tumalloc] stops when it walks
    the blocks [l], paired with the block visited just before it (the
    loop's [prev]). *)
Fixpoint first_fit (s : state) (size prev : Z) (l : list Z) : option (Z * Z) :=
  match l with
  | [] => None
  | b :: l' =>
      if size <=? load_size s b then Some (b, prev) else first_fit s size b l'
  end.

(** The state after the optional [split] inside the branch taken on a
    hit. *)
Definition after_split (s : state) (size curr : Z) : state :=
  if size_t (size + header_size) <? load_size s curr
  then snd (split s curr (to_int size)) else s.

(** ** Client call sequences *)



(** ** Concrete allocator states *)

(** One free block of 64 bytes at 4096 that ends at the program break; this
    is the state [do_alloc 64] leaves behind on a fresh allocator. *)
Definition one_free_block : state :=
  mkState {[ 4096 := 64 ]} {[ 4096 := 0 ]} ∅ 4096 NULL 4176 65536.

(** The state in which [do_alloc] calls [coalesce] when the arena grows by
    a 32-byte block right after [one_free_block]'s block: the new block
    4176 is the list head, its next is the old head 4096. *)
Definition new_block_at_head : state :=
  mkState {[ 4096 := 64; 4176 := 32 ]} {[ 4096 := 0; 4176 := 4096 ]} ∅
          4176 NULL 4224 65536.

(** Two free blocks, 4336 (96 bytes) then 4096 (16 bytes), with the
    next-fit cursor left on the second one. *)
Definition cursor_on_second : state :=
  mkState {[ 4096 := 16; 4336 := 96 ]} {[ 4096 := 0; 4336 := 4096 ]} ∅
          4336 4096 4448 65536.

(** A run of the exported functions from a fresh allocator that ends with
    the free list and cursor of [cursor_on_second]. *)
Definition reach_cursor_on_second : result state :=
  '(_, s) ← do_alloc 4 (initial_state 4096 65536) 16;
  '(_, s) ← tumalloc 4 s 64;
  '(_, s) ← do_alloc 4 s 32;
  '(_, s) ← tumalloc 4 s 64;
  '(_, s) ← do_alloc 4 s 16;
  '(_, s) ← tumalloc 4 s 32;
  '(_, s) ← do_alloc 4 s 64;
  Ret s.

(** Three free blocks 4096 (16 bytes), 4200 (48 bytes) and 4400 (32 bytes),
    linked in that order, none adjacent to another; the cursor is unset. *)
Definition three_free_blocks : state :=
  mkState {[ 4096 := 16; 4200 := 48; 4400 := 32 ]}
          {[ 4096 := 4200; 4200 := 4400; 4400 := 0 ]} ∅
          4096 NULL 8192 65536.

(** Three free blocks linked 4096 (16 bytes), 8112 (64 bytes), 4200 (48
    bytes); the second one ends exactly at the program break 8192. *)
Definition top_block_free : state :=
  mkState {[ 4096 := 16; 8112 := 64; 4200 := 48 ]}
          {[ 4096 := 8112; 8112 := 4200; 4200 := 0 ]} ∅
          4096 NULL 8192 65536.

(** A single free block of 2^33 bytes at 4096. *)
Definition huge_free_block : state :=
  mkState {[ 4096 := 2 ^ 33 ]} {[ 4096 := 0 ]} ∅ 4096 NULL (2 ^ 34) (2 ^ 40).

(** A client holds the payload 4112 of a 16-byte block whose header is at
    4096; this is the state [tumalloc 16] leaves on a fresh allocator. *)
Definition small_used_block : state :=
  mkState {[ 4096 := 16 ]} {[ 4096 := 0 ]} ∅ NULL NULL 4128 65536.

(** ** Reading back what was stored *)

Lemma load_size_store_size s b v b' :
  load_size (store_size s b v) b' = if decide (b = b') then v else load_size s b'.
Proof.
  unfold load_size, store_size; simpl. rewrite lookup_insert.
  destruct (decide (b = b')); reflexivity.
Qed.

Lemma load_next_store_next s b v b' :
  load_next (store_next s b v) b' = if decide (b = b') then v else load_next s b'.
Proof.
  unfold load_next, store_next; simpl. rewrite lookup_insert.
  destruct (decide (b = b')); reflexivity.
Qed.

Lemma load_byte_store_byte s a v a' :
  load_byte (store_byte s a v) a' = if decide (a = a') then v else load_byte s a'.
Proof.
  unfold load_byte, store_byte; simpl. rewrite lookup_insert.
  destruct (decide (a = a')); reflexivity.
Qed.

Lemma load_size_store_next s b v b' : load_size (store_next s b v) b' = load_size s b'.
Proof. reflexivity. Qed.

Lemma load_next_store_size s b v b' : load_next (store_size s b v) b' = load_next s b'.
Proof. reflexivity. Qed.

Lemma size_t_small x : 0 <= x < 2 ^ 64 -> size_t x = x.
Proof. intros H. unfold size_t. apply Z.mod_small. exact H. Qed.

Lemma ptr_add_small p n : 0 <= p + n < 2 ^ 64 -> ptr_add p n = p + n.
Proof. intros H. unfold ptr_add. apply Z.mod_small. exact H. Qed.

Lemma load_size_set_HEAD s p b : load_size (set_HEAD s p) b = load_size s b.
Proof. reflexivity. Qed.

Lemma load_next_set_HEAD s p b : load_next (set_HEAD s p) b = load_next s b.
Proof. reflexivity. Qed.

Lemma load_size_set_next_fit_ptr s p b :
  load_size (set_next_fit_ptr s p) b = load_size s b.
Proof. reflexivity. Qed.

Lemma load_next_set_next_fit_ptr s p b :
  load_next (set_next_fit_ptr s p) b = load_next s b.
Proof. reflexivity. Qed.

Lemma load_size_set_program_break s p b :
  load_size (set_program_break s p) b = load_size s b.
Proof. reflexivity. Qed.

Lemma load_next_set_program_break s p b :
  load_next (set_program_break s p) b = load_next s b.
Proof. reflexivity. Qed.

Ltac loads :=
  repeat first
    [ rewrite load_size_store_size
    | rewrite load_next_store_next
    | rewrite load_byte_store_byte
    | rewrite load_size_store_next
    | rewrite load_next_store_size
    | rewrite load_size_set_HEAD
    | rewrite load_next_set_HEAD
    | rewrite load_size_set_next_fit_ptr
    | rewrite load_next_set_next_fit_ptr
    | rewrite load_size_set_program_break
    | rewrite load_next_set_program_break ].

(** ** [split] *)

(** C3.  For a block [B] and a requested payload size [R] (a non-negative
    [int]), [split] returns [NULL] exactly when [B->size < R + header_size];
    otherwise it returns [B], writes at [B + R + header_size] a header whose
    size is [B]'s old size minus [R] minus [header_size] and whose next is
    [B]'s next, and sets [B->size] to [R]. *)
Theorem split_spec (s : state) (B R : Z) :
  0 < B < 2 ^ 64 ->
  0 <= R < 2 ^ 31 ->
  0 <= load_size s B ->
  B + header_size + load_size s B <= 2 ^ 64 ->
  (fst (split s B R) = NULL <-> load_size s B < R + header_size) /\
  (R + header_size <= load_size s B ->
   let s' := snd (split s B R) in
   let T := B + R + header_size in
   fst (split s B R) = B /\
   load_size s' T = load_size s B - R - header_size /\
   load_next s' T = load_next s B /\
   load_size s' B = R /\
   load_next s' B = load_next s B /\
   HEAD s' = HEAD s /\ next_fit_ptr s' = next_fit_ptr s).
Proof.
  intros HB HR Hsz Hfit. unfold header_size in *.
  assert (Hguard : size_t (size_t R + 16) = R + 16).
  { rewrite (size_t_small R) by lia. apply size_t_small. lia. }
  unfold split, header_size. rewrite Hguard.
  destruct (Z.ltb_spec (load_size s B) (R + 16)) as [Hlt | Hge]; simpl.
  - split; [ split; [ intros _; exact Hlt | reflexivity ] | lia ].
  - split.
    + split; [ unfold NULL; lia | lia ].
    + intros _.
      assert (HT : ptr_add (ptr_add B R) 16 = B + R + 16).
      { rewrite (ptr_add_small B R) by lia. apply ptr_add_small. lia. }
      rewrite HT. loads.
      destruct (decide (B + R + 16 = B + R + 16)) as [_ | Hne]; [ | congruence ].
      destruct (decide (B = B + R + 16)) as [Heq | _]; [ lia | ].
      destruct (decide (B + R + 16 = B)) as [Heq | _]; [ lia | ].
      destruct (decide (B = B)) as [_ | Hne]; [ | congruence ].
      rewrite !(size_t_small R) by lia.
      rewrite (size_t_small (load_size s B - R)) by lia.
      rewrite size_t_small by lia.
      repeat split; reflexivity.
Qed.

Lemma split_spec_witness :
  fst (split (store_size (initial_state 4096 65536) 4096 64) 4096 16) = 4096 /\
  load_size (snd (split (store_size (initial_state 4096 65536) 4096 64) 4096 16)) 4128 = 32.
Proof.
  pose (s := store_size (initial_state 4096 65536) 4096 64).
  assert (H1 : 0 < 4096 < 2 ^ 64) by lia.
  assert (H2 : 0 <= 16 < 2 ^ 31) by lia.
  assert (H3 : 0 <= load_size s 4096) by (vm_compute; discriminate).
  assert (H4 : 4096 + header_size + load_size s 4096 <= 2 ^ 64) by (vm_compute; discriminate).
  destruct (split_spec s 4096 16 H1 H2 H3 H4) as [_ Hok].
  assert (H5 : 16 + header_size <= load_size s 4096) by (vm_compute; discriminate).
  destruct (Hok H5) as (Hr & Hs & _).
  split; [ exact Hr | exact Hs ].
Defined.

(** ** [turealloc] *)



(** ** [tufree] *)

Lemma free_list_tufree (fuel : nat) (s : state) (ptr : Z) :
  tufree s ptr = s /\ free_list fuel (tufree s ptr) = free_list fuel s.
Proof. split; reflexivity. Qed.

(** C1, evaluated on the code.  A pointer obtained from [tumalloc] and then
    passed to [tufree] is not put back: the free list is empty afterwards,
    where the claim asks for one entry covering the released block. *)
Theorem tufree_does_not_release :
  exists P s1,
    tumalloc 1 (initial_state 4096 65536) 16 = Ret (P, s1) /\
    P = 4112 /\
    load_size s1 (ptr_add P (- header_size)) = 16 /\
    tufree s1 P = s1 /\
    free_list 1 (tufree s1 P) = Ret [] /\
    tufree s1 NULL = s1.
Proof.
  eexists _, _. split; [ vm_compute; reflexivity | ].
  repeat split.
Qed.

(** ** [tucalloc] *)

(** C5, evaluated on the code.  With [count = 1] and [size = 0] the product
    is 0 and does not overflow, and [tumalloc 0] itself succeeds, but
    [tucalloc] divides [SIZE_MAX] by [size] first and never gets there. *)
Theorem tucalloc_one_by_zero :
  1 * 0 <= SIZE_MAX /\
  (exists p s1, tumalloc 1 (initial_state 4096 65536) (1 * 0) = Ret (p, s1) /\ p = 4112) /\
  tucalloc 1 (initial_state 4096 65536) 1 0 = Fault DivisionByZero.
Proof.
  split; [ vm_compute; discriminate | ].
  split; [ | reflexivity ].
  eexists _, _. split; [ vm_compute; reflexivity | reflexivity ].
Qed.

(** C10.  [tucalloc] evaluates [SIZE_MAX / size] before anything else, so
    with [size = 0] every call, whatever the count and the allocator state,
    ends in a division by zero and [tumalloc] is never reached. *)
Theorem tucalloc_zero_size_divides_by_zero (fuel : nat) (s : state) (count : Z) :
  tucalloc fuel s count 0 = Fault DivisionByZero.
Proof. reflexivity. Qed.

(** ** Walking a chain *)

Lemma chain_not_null s l : forall p b, chain s p l -> In b l -> b <> NULL.
Proof.
  induction l as [| c l IH]; intros p b Hc Hin; [ destruct Hin | ].
  destruct Hc as (_ & Hnz & Hc). destruct Hin as [<- | Hin]; [ exact Hnz | ].
  exact (IH _ _ Hc Hin).
Qed.

Lemma walk_chain s l : forall p fuel,
  chain s p l -> (length l < fuel)%nat -> walk fuel s p = Ret l.
Proof.
  induction l as [| b l IH]; intros p fuel Hc Hf;
    (destruct fuel as [| fuel]; [ simpl in Hf; lia | ]).
  - simpl in Hc. subst p. reflexivity.
  - destruct Hc as (-> & Hnz & Hc). simpl.
    destruct (Z.eqb_spec b NULL) as [Hb | _]; [ contradiction | ].
    rewrite (IH _ fuel Hc) by (simpl in Hf; lia). reflexivity.
Qed.

Lemma find_prev_from_chain s B l : forall curr fuel,
  chain s curr l -> (length l < fuel)%nat ->
  find_prev_from fuel s curr B
    = Ret (default NULL (find (fun c => block_end s c =? B) l)).
Proof.
  induction l as [| b l IH]; intros curr fuel Hc Hf;
    (destruct fuel as [| fuel]; [ simpl in Hf; lia | ]).
  - simpl in Hc. subst curr. reflexivity.
  - destruct Hc as (-> & Hnz & Hc). simpl.
    destruct (Z.eqb_spec b NULL) as [Hb | _]; [ contradiction | ].
    destruct (block_end s b =? B); [ reflexivity | ].
    apply IH; [ exact Hc | simpl in Hf; lia ].
Qed.

Lemma find_next_from_chain s E l : forall curr fuel,
  chain s curr l -> (length l < fuel)%nat ->
  find_next_from fuel s curr E = Ret (default NULL (find (fun c => c =? E) l)).
Proof.
  induction l as [| b l IH]; intros curr fuel Hc Hf;
    (destruct fuel as [| fuel]; [ simpl in Hf; lia | ]).
  - simpl in Hc. subst curr. reflexivity.
  - destruct Hc as (-> & Hnz & Hc). simpl.
    destruct (Z.eqb_spec b NULL) as [Hb | _]; [ contradiction | ].
    destruct (b =? E); [ reflexivity | ].
    apply IH; [ exact Hc | simpl in Hf; lia ].
Qed.

Lemma find_address (E : Z) (l : list Z) :
  (In E l -> find (fun c => c =? E) l = Some E) /\
  (~ In E l -> find (fun c => c =? E) l = None).
Proof.
  induction l as [| b l [IHin IHout]]; simpl.
  - split; [ intros [] | reflexivity ].
  - destruct (Z.eqb_spec b E) as [-> | Hne].
    + split; [ reflexivity | intros Hn; exfalso; apply Hn; left; reflexivity ].
    + split.
      * intros [Heq | Hin]; [ contradiction | exact (IHin Hin) ].
      * intros Hn. apply IHout. intros Hin. apply Hn. right. exact Hin.
Qed.

Lemma search_chain s size l : forall curr prev fuel,
  chain s curr l -> (length l < fuel)%nat ->
  search fuel s size curr prev
    = Ret (match first_fit s size prev l with
           | Some (b, pv) => Some (take_block s size b pv)
           | None => None
           end).
Proof.
  induction l as [| b l IH]; intros curr prev fuel Hc Hf;
    (destruct fuel as [| fuel]; [ simpl in Hf; lia | ]).
  - simpl in Hc. subst curr. reflexivity.
  - destruct Hc as (-> & Hnz & Hc). simpl.
    destruct (Z.eqb_spec b NULL) as [Hb | _]; [ contradiction | ].
    destruct (size <=? load_size s b); [ reflexivity | ].
    apply IH; [ exact Hc | simpl in Hf; lia ].
Qed.

Lemma first_fit_find s size l : forall prev,
  fst <$> first_fit s size prev l = find (fun b => size <=? load_size s b) l.
Proof.
  induction l as [| b l IH]; intros prev; simpl; [ reflexivity | ].
  destruct (size <=? load_size s b); [ reflexivity | apply IH ].
Qed.

Lemma take_block_result s size b pv :
  fst (take_block s size b pv) = ptr_add b header_size /\
  program_break (snd (take_block s size b pv)) = program_break s /\
  break_limit (snd (take_block s size b pv)) = break_limit s.
Proof.
  unfold take_block, split; simpl.
  repeat match goal with |- context [if ?c then _ else _] => destruct c; simpl end;
    repeat split.
Qed.

(** ** [tumalloc]: the search *)

Lemma tumalloc_on_chain (fuel : nat) (s : state) (l : list Z) (n : Z) :
  chain s (search_start s) l -> (length l < fuel)%nat ->
  tumalloc fuel s n
    = Ret (match first_fit s (align_up n) NULL l with
           | Some (b, pv) => take_block s (align_up n) b pv
           | None => extend s (align_up n)
           end).
Proof.
  intros Hc Hf. unfold tumalloc.
  rewrite (search_chain s (align_up n) l _ NULL fuel Hc Hf).
  destruct (first_fit s (align_up n) NULL l) as [[b pv] |]; reflexivity.
Qed.

(** C2, as the code has it.  Let [l] be the blocks met when following
    [next] from the cursor (from [HEAD] when the cursor is [NULL]).
    [tumalloc] returns the payload pointer of the first block of [l] whose
    size is at least the aligned request and leaves the program break
    alone; when no block of [l] is large enough it goes to the OS. *)
Theorem tumalloc_scans_from_cursor (fuel : nat) (s : state) (l : list Z) (n : Z) :
  chain s (search_start s) l -> (length l < fuel)%nat ->
  exists p s', tumalloc fuel s n = Ret (p, s') /\
    match find (fun b => align_up n <=? load_size s b) l with
    | Some b => p = ptr_add b header_size /\ program_break s' = program_break s
    | None => (p, s') = extend s (align_up n)
    end.
Proof.
  intros Hc Hf. rewrite (tumalloc_on_chain fuel s l n Hc Hf).
  rewrite <- (first_fit_find s (align_up n) l NULL).
  destruct (first_fit s (align_up n) NULL l) as [[b pv] |]; simpl.
  - exists (fst (take_block s (align_up n) b pv)), (snd (take_block s (align_up n) b pv)).
    destruct (take_block_result s (align_up n) b pv) as (Hp & Hb & _).
    split; [ destruct (take_block s (align_up n) b pv); reflexivity | ].
    split; [ exact Hp | exact Hb ].
  - exists (fst (extend s (align_up n))), (snd (extend s (align_up n))).
    split; destruct (extend s (align_up n)); reflexivity.
Qed.

Lemma tumalloc_scans_from_cursor_witness :
  exists p s', tumalloc 3 cursor_on_second 16 = Ret (p, s') /\
    p = ptr_add 4096 header_size /\ program_break s' = program_break cursor_on_second.
Proof.
  assert (Hc : chain cursor_on_second (search_start cursor_on_second) [4096]).
  { vm_compute. repeat split. discriminate. }
  assert (Hf : (length [4096] < 3)%nat) by (simpl; lia).
  exact (tumalloc_scans_from_cursor 3 cursor_on_second [4096] 16 Hc Hf).
Defined.

(** C2 as stated fails: in [cursor_on_second] the free list holds block
    4336 with 96 bytes, yet a request for 32 bytes, searched from the cursor
    4096, misses and moves the program break. *)
Lemma tumalloc_skips_blocks_before_cursor :
  free_list 3 cursor_on_second = Ret [4336; 4096] /\
  align_up 32 <= load_size cursor_on_second 4336 /\
  exists s', tumalloc 3 cursor_on_second 32 = Ret (4464, s') /\
    program_break cursor_on_second = 4448 /\ program_break s' = 4496.
Proof.
  split; [ reflexivity | ].
  split; [ vm_compute; discriminate | ].
  eexists. split; [ vm_compute; reflexivity | ].
  split; reflexivity.
Qed.

(** [cursor_on_second]'s free list and cursor arise from a fresh allocator
    through the exported functions. *)
Example cursor_on_second_reachable :
  exists s, reach_cursor_on_second = Ret s /\
    free_list 3 s = Ret [4336; 4096] /\ next_fit_ptr s = 4096 /\
    load_size s 4336 = 96 /\ load_size s 4096 = 16 /\ program_break s = 4448.
Proof. eexists. split; [ vm_compute; reflexivity | repeat split ]. Qed.

(** ** [tumalloc]: growing the arena *)

Lemma align_up_nonneg (n : Z) : 0 <= align_up n.
Proof.
  unfold align_up. apply Z.land_nonneg. left.
  unfold size_t. apply Z.mod_pos_bound. lia.
Qed.

(** C7, as the code has it.  When the search misses and the OS grants the
    memory, [tumalloc] writes a header of the aligned size at the old break,
    with [next] set to the current [HEAD], and returns its payload.  The
    block is not linked: [HEAD] and every other header are as before, no
    coalescing takes place, and the cursor is reset to [NULL]. *)
Theorem tumalloc_miss_grows_arena (fuel : nat) (s : state) (l : list Z) (n : Z) :
  chain s (search_start s) l -> (length l < fuel)%nat ->
  Forall (fun b => load_size s b < align_up n) l ->
  0 <= program_break s ->
  program_break s + align_up n + header_size <= break_limit s ->
  break_limit s < 2 ^ 63 ->
  exists s',
    tumalloc fuel s n = Ret (program_break s + header_size, s') /\
    load_size s' (program_break s) = align_up n /\
    load_next s' (program_break s) = HEAD s /\
    HEAD s' = HEAD s /\
    next_fit_ptr s' = NULL /\
    program_break s' = program_break s + align_up n + header_size /\
    (forall b, b <> program_break s ->
       load_size s' b = load_size s b /\ load_next s' b = load_next s b).
Proof.
  intros Hc Hf Hsmall Hbrk Hroom Hlim.
  pose proof (align_up_nonneg n) as Hreq.
  rewrite (tumalloc_on_chain fuel s l n Hc Hf).
  assert (Hnone : forall pv, first_fit s (align_up n) pv l = None).
  { clear -Hsmall. induction Hsmall as [| b l Hb _ IH]; intros pv; simpl; [ reflexivity | ].
    destruct (Z.leb_spec (align_up n) (load_size s b)); [ lia | apply IH ]. }
  rewrite Hnone. clear Hnone Hc Hf Hsmall.
  unfold extend, sbrk. unfold header_size in *.
  rewrite (size_t_small (align_up n + 16)) by lia.
  assert (Hincr : to_intptr (align_up n + 16) = align_up n + 16).
  { unfold to_intptr. rewrite Z.mod_small by lia. lia. }
  rewrite Hincr.
  destruct (Z.leb_spec 0 (program_break s + (align_up n + 16))) as [_ | Hneg]; [ | lia ].
  destruct (Z.leb_spec (program_break s + (align_up n + 16)) (break_limit s))
    as [_ | Hover]; [ | lia ].
  simpl.
  destruct (Z.eqb_spec (program_break s) SBRK_FAILED) as [Hbad | _];
    [ unfold SBRK_FAILED in Hbad; lia | ].
  rewrite ptr_add_small by lia.
  eexists. split; [ reflexivity | ].
  loads.
  destruct (decide (program_break s = program_break s)) as [_ | Hne]; [ | congruence ].
  split; [ reflexivity | ].
  split; [ reflexivity | ].
  split; [ reflexivity | ].
  split; [ reflexivity | ].
  split; [ simpl; lia | ].
  intros b Hb. loads.
  destruct (decide (program_break s = b)) as [Heq | _]; [ congruence | ].
  split; reflexivity.
Qed.

Lemma tumalloc_miss_grows_arena_witness :
  exists s',
    tumalloc 2 one_free_block 128 = Ret (4176 + header_size, s') /\
    load_size s' 4176 = align_up 128 /\
    load_next s' 4176 = 4096 /\
    HEAD s' = 4096 /\
    next_fit_ptr s' = NULL.
Proof.
  assert (Hc : chain one_free_block (search_start one_free_block) [4096]).
  { vm_compute. repeat split. discriminate. }
  assert (Hf : (length [4096] < 2)%nat) by (simpl; lia).
  assert (Hs : Forall (fun b => load_size one_free_block b < align_up 128) [4096]).
  { constructor; [ vm_compute; reflexivity | constructor ]. }
  assert (H0 : 0 <= program_break one_free_block) by (vm_compute; discriminate).
  assert (H1 : program_break one_free_block + align_up 128 + header_size
               <= break_limit one_free_block) by (vm_compute; discriminate).
  assert (H2 : break_limit one_free_block < 2 ^ 63) by (vm_compute; reflexivity).
  destruct (tumalloc_miss_grows_arena 2 one_free_block [4096] 128 Hc Hf Hs H0 H1 H2)
    as (s' & Hrun & Hsz & Hnx & Hhd & Hnf & _).
  exists s'. repeat split; assumption.
Defined.

(** C7 as stated fails: the free block 4096 of [one_free_block] ends at the
    break 4176, so the block carved for a 128-byte request is its
    address-successor; after the call the free list is still [4096] alone
    with its 64 bytes: the new block 4176 was neither linked nor merged. *)
Lemma tumalloc_miss_does_not_link :
  block_end one_free_block 4096 = program_break one_free_block /\
  exists s', tumalloc 2 one_free_block 128 = Ret (4192, s') /\
    free_list 2 s' = Ret [4096] /\
    HEAD s' <> 4176 /\
    load_size s' 4096 = 64 /\
    load_size s' 4176 = 128.
Proof.
  split; [ reflexivity | ].
  eexists. split; [ vm_compute; reflexivity | ].
  repeat split. vm_compute. discriminate.
Qed.

(** The routine that does link and merge, [do_alloc], is not called by
    [tumalloc]; on the same state it absorbs the new block into 4096. *)
Example do_alloc_links_and_merges :
  exists s', do_alloc 3 one_free_block 128 = Ret (4192, s') /\
    free_list 2 s' = Ret [4096] /\ load_size s' 4096 = 64 + header_size + 128 /\
    next_fit_ptr s' = next_fit_ptr one_free_block.
Proof. eexists. split; [ vm_compute; reflexivity | repeat split ]. Qed.

(** ** [tumalloc]: splitting *)

(** C4, evaluated on the code.  [one_free_block] is what [do_alloc 64]
    leaves on a fresh allocator.  A 16-byte request splits its block: 4096
    keeps 16 bytes and goes to the client, the remainder header is written
    at 4128 with 32 bytes, and the free list ends up empty, so the
    remainder belongs to nobody. *)
Theorem tumalloc_split_loses_remainder :
  do_alloc 2 (initial_state 4096 65536) 64 = Ret (4112, one_free_block) /\
  free_list 2 one_free_block = Ret [4096] /\
  load_size one_free_block 4096 = 64 /\
  exists s', tumalloc 2 one_free_block 16 = Ret (4112, s') /\
    load_size s' 4096 = 16 /\
    load_size s' 4128 = 32 /\
    load_next s' 4096 = NULL /\
    free_list 2 s' = Ret [] /\
    program_break s' = program_break one_free_block.
Proof.
  split; [ vm_compute; reflexivity | ].
  split; [ reflexivity | ].
  split; [ reflexivity | ].
  eexists. split; [ vm_compute; reflexivity | ].
  repeat split.
Qed.

(** ** [coalesce] *)

Lemma size_t_add_r (a b : Z) : size_t (a + size_t b) = size_t (a + b).
Proof. unfold size_t. apply Zplus_mod_idemp_r. Qed.


Lemma ptr_add_add (p a b : Z) : ptr_add (ptr_add p a) b = (p + a + b) mod 2 ^ 64.
Proof. unfold ptr_add. apply Zplus_mod_idemp_l. Qed.

(** Once [P] has absorbed its address-successor [B], [P] ends where [B]
    ended. *)
Lemma end_after_absorb (s : state) (P B : Z) :
  block_end s P = B ->
  ptr_add (ptr_add P (size_t (load_size s P + header_size + load_size s B))) header_size
    = block_end s B.
Proof.
  unfold block_end. remember (load_size s B) as sB eqn:EB.
  remember (load_size s P) as sP eqn:EP. clear EB EP.
  intros <-. rewrite !ptr_add_add. unfold size_t.
  rewrite (Z.add_comm P ((sP + header_size + sB) mod 2 ^ 64)).
  rewrite <- (Z.add_assoc _ P header_size).
  rewrite Zplus_mod_idemp_l.
  rewrite <- (Z.add_assoc _ sB header_size).
  rewrite Zplus_mod_idemp_l.
  f_equal. lia.
Qed.

Lemma absorb_into_prev_spec (s : state) (P B : Z) :
  P <> NULL -> block_end s P = B -> P <> B ->
  let r := absorb_into_prev s P B in
  fst r = P /\
  load_size (snd r) P = size_t (load_size s P + header_size + load_size s B) /\
  load_next (snd r) P
    = (if decide (load_next s P = B) then load_next s B else load_next s P) /\
  HEAD (snd r) = HEAD s /\
  (forall b, b <> P ->
     load_size (snd r) b = load_size s b /\ load_next (snd r) b = load_next s b).
Proof.
  intros HP Hend HPB. unfold absorb_into_prev.
  destruct (Z.eqb_spec P NULL) as [Hnull | _]; [ contradiction | ].
  destruct (Z.eqb_spec (block_end s P) B) as [_ | Hne]; [ | contradiction ].
  rewrite load_next_store_size.
  assert (Hsz : size_t (load_size s P + size_t (load_size s B + header_size))
                = size_t (load_size s P + header_size + load_size s B)).
  { rewrite size_t_add_r. f_equal. lia. }
  rewrite Hsz.
  destruct (Z.eqb_spec (load_next s P) B) as [Hnx | Hnx];
    destruct (decide (load_next s P = B)) as [Hd | Hd]; try contradiction; simpl.
  - loads. destruct (decide (P = P)) as [_ | Hne]; [ | congruence ].
    destruct (decide (P = B)) as [Heq | _]; [ contradiction | ].
    repeat split; loads; destruct (decide (P = b)); congruence.
  - loads. destruct (decide (P = P)) as [_ | Hne]; [ | congruence ].
    repeat split; loads; destruct (decide (P = b)); congruence.
Qed.

Lemma absorb_next_spec (s : state) (Q N : Z) :
  N <> NULL -> block_end s Q = N -> N <> Q ->
  let s' := absorb_next s Q N in
  load_size s' Q = size_t (load_size s Q + header_size + load_size s N) /\
  load_next s' Q = load_next s N /\
  HEAD s' = HEAD s /\
  (forall b, b <> Q ->
     load_size s' b = load_size s b /\ load_next s' b = load_next s b).
Proof.
  intros HN Hend HNQ. unfold absorb_next.
  destruct (Z.eqb_spec N NULL) as [Hnull | _]; [ contradiction | ].
  destruct (Z.eqb_spec (block_end s Q) N) as [_ | Hne]; [ | contradiction ].
  assert (Hsz : size_t (load_size s Q + size_t (load_size s N + header_size))
                = size_t (load_size s Q + header_size + load_size s N)).
  { rewrite size_t_add_r. f_equal. lia. }
  rewrite Hsz. simpl. loads.
  destruct (decide (Q = Q)) as [_ | Hne]; [ | congruence ].
  repeat split; loads; destruct (decide (Q = b)); congruence.
Qed.



(** [new_block_at_head] is the state [do_alloc 32] hands to [coalesce] when
    it starts from [one_free_block]. *)
Example new_block_at_head_arises :
  do_alloc 3 one_free_block 32
    = ('(merged, s4) ← coalesce 3 new_block_at_head 4176;
       Ret (4192, set_HEAD s4 merged)).
Proof. vm_compute. reflexivity. Qed.


(** ** Sequences of [tumalloc] and [tufree] *)




(** ** More on chains *)

Lemma chain_frame s s' l : forall p,
  (forall x, In x l -> load_next s' x = load_next s x) ->
  chain s p l -> chain s' p l.
Proof.
  induction l as [| b l IH]; intros p Hsame Hc; [ exact Hc | ].
  destruct Hc as (-> & Hnz & Hc). simpl.
  split; [ reflexivity | split; [ exact Hnz | ] ].
  rewrite (Hsame b (or_introl eq_refl)).
  apply IH; [ | exact Hc ].
  intros x Hx. apply Hsame. right. exact Hx.
Qed.

Lemma chain_unique s l1 : forall l2 p, chain s p l1 -> chain s p l2 -> l1 = l2.
Proof.
  induction l1 as [| b l1 IH]; intros [| c l2] p H1 H2; simpl in *.
  - reflexivity.
  - destruct H2 as (-> & Hnz & _). contradiction.
  - destruct H1 as (-> & Hnz & _). contradiction.
  - destruct H1 as (-> & _ & H1). destruct H2 as (<- & _ & H2).
    f_equal. exact (IH _ _ H1 H2).
Qed.

Lemma chain_suffix s l : forall p b,
  chain s p l -> In b l ->
  exists l1 l2, l = l1 ++ b :: l2 /\ chain s b (b :: l2).
Proof.
  induction l as [| c l IH]; intros p b Hc Hin; [ destruct Hin | ].
  destruct Hin as [-> | Hin].
  - exists [], l. split; [ reflexivity | ].
    destruct Hc as (_ & Hnz & Hc). simpl. auto.
  - destruct Hc as (_ & _ & Hc).
    destruct (IH _ _ Hc Hin) as (l1 & l2 & -> & Hb).
    exists (c :: l1), l2. split; [ reflexivity | exact Hb ].
Qed.

(** A chain that reaches [NULL] visits no block twice. *)
Lemma chain_NoDup s l : forall p, chain s p l -> List.NoDup l.
Proof.
  induction l as [| b l IH]; intros p Hc; [ constructor | ].
  pose proof Hc as (-> & Hnz & Hc').
  constructor; [ | exact (IH _ Hc') ].
  intros Hin.
  destruct (chain_suffix s l _ b Hc' Hin) as (l1 & l2 & Hl & Hb).
  pose proof (chain_unique s _ _ _ Hc Hb) as Heq.
  injection Heq as Heq. rewrite Hl in Heq at 1.
  apply (f_equal (@length Z)) in Heq. rewrite length_app in Heq. simpl in Heq. lia.
Qed.

Lemma chain_tail s l1 : forall p b l2,
  chain s p (l1 ++ b :: l2) -> chain s b (b :: l2).
Proof.
  induction l1 as [| c l1 IH]; intros p b l2 Hc; simpl in Hc.
  - destruct Hc as (-> & Hc). simpl. auto.
  - destruct Hc as (_ & _ & Hc). exact (IH _ _ _ Hc).
Qed.

Lemma last_in (l : list Z) (d : Z) : l <> [] -> In (List.last l d) l.
Proof.
  induction l as [| x l IH]; intros Hne; [ congruence | ].
  destruct l as [| y l]; [ left; reflexivity | ].
  right. apply IH. discriminate.
Qed.

(** Redirecting the link of the block before [b] to [b]'s successor takes
    [b], and only [b], out of the chain. *)
Lemma chain_unlink s b l2 : forall l1 p,
  l1 <> [] ->
  chain s p (l1 ++ b :: l2) ->
  chain (store_next s (List.last l1 NULL) (load_next s b)) p (l1 ++ l2).
Proof.
  intros l1 p Hne Hc.
  pose proof (chain_NoDup s _ _ Hc) as Hnd.
  revert p Hne Hc Hnd.
  induction l1 as [| x l1 IH]; intros p Hne Hc Hnd; [ congruence | ].
  destruct l1 as [| y l1].
  - simpl in *. destruct Hc as (-> & Hx & _ & Hb & Hc).
    split; [ reflexivity | split; [ exact Hx | ] ].
    rewrite load_next_store_next.
    destruct (decide (x = x)) as [_ | Hn]; [ | congruence ].
    apply (chain_frame s); [ | exact Hc ].
    intros z Hz. rewrite load_next_store_next.
    destruct (decide (x = z)) as [<- | _]; [ | reflexivity ].
    inversion Hnd as [| ? ? Hnotin _]. exfalso. apply Hnotin. right. exact Hz.
  - change (List.last (x :: y :: l1) NULL) with (List.last (y :: l1) NULL).
    destruct Hc as (-> & Hx & Hc).
    inversion Hnd as [| ? ? Hnotin Hnd']. subst.
    split; [ reflexivity | split; [ exact Hx | ] ].
    rewrite load_next_store_next.
    destruct (decide (List.last (y :: l1) NULL = x)) as [Heq | _].
    + exfalso. apply Hnotin. rewrite <- Heq.
      apply (in_or_app (y :: l1) (b :: l2)). left.
      apply last_in. discriminate.
    + apply IH; [ discriminate | exact Hc | exact Hnd' ].
Qed.

(** ** Alignment of the request *)

Lemma land_align_mask (x : Z) :
  0 <= x < 2 ^ 64 -> Z.land x (2 ^ 64 - 16) = 16 * (x / 16).
Proof.
  intros Hx.
  change (2 ^ 64 - 16) with (Z.ldiff (Z.ones 64) (Z.ones 4)).
  rewrite Z.ldiff_land, Z.land_assoc, <- Z.ldiff_land.
  rewrite Z.land_ones by lia. rewrite Z.mod_small by lia.
  rewrite Z.ldiff_ones_r by lia.
  rewrite Z.shiftr_div_pow2, Z.shiftl_mul_pow2 by lia.
  change (2 ^ 4) with 16. lia.
Qed.

Lemma align_up_eq (n : Z) :
  align_up n = 16 * (size_t (n + 15) / 16).
Proof.
  unfold align_up, ALIGNMENT.
  replace (n + 16 - 1) with (n + 15) by lia.
  change (size_t (Z.lnot (16 - 1))) with (2 ^ 64 - 16).
  apply land_align_mask. unfold size_t. apply Z.mod_pos_bound. lia.
Qed.

(** X1.  A request of at most [SIZE_MAX - 15] bytes is rounded up to the next
    multiple of 16. *)
Theorem align_up_rounds_up (n : Z) :
  0 <= n <= 2 ^ 64 - 16 ->
  align_up n mod 16 = 0 /\ n <= align_up n < n + 16.
Proof.
  intros Hn. rewrite align_up_eq. rewrite size_t_small by lia.
  split.
  - rewrite Z.mul_comm. apply Z.mod_mul. lia.
  - pose proof (Z.div_mod (n + 15) 16 ltac:(lia)) as Hdm.
    pose proof (Z.mod_pos_bound (n + 15) 16 ltac:(lia)) as Hmb.
    lia.
Qed.

Lemma align_up_rounds_up_witness : align_up 17 mod 16 = 0 /\ 17 <= align_up 17 < 17 + 16.
Proof. apply (align_up_rounds_up 17). lia. Defined.

(** X2.  A request within 15 bytes of [SIZE_MAX] wraps around in the rounding
    and becomes a request for 0 bytes. *)
Theorem align_up_wraps_to_zero (n : Z) :
  2 ^ 64 - 16 < n < 2 ^ 64 -> align_up n = 0.
Proof.
  intros Hn. rewrite align_up_eq.
  assert (Hw : size_t (n + 15) = n + 15 - 2 ^ 64).
  { unfold size_t. symmetry. apply (Z.mod_unique (n + 15) (2 ^ 64) 1); lia. }
  rewrite Hw. rewrite Z.div_small by lia. reflexivity.
Qed.

Lemma align_up_wraps_to_zero_witness : align_up (2 ^ 64 - 1) = 0.
Proof. apply (align_up_wraps_to_zero (2 ^ 64 - 1)). lia. Defined.

(** ** [find_prev], [find_next] *)

Lemma find_end_none s B l :
  (forall c, In c l -> block_end s c <> B) ->
  find (fun c => block_end s c =? B) l = None.
Proof.
  induction l as [| c l IH]; intros Hall; simpl; [ reflexivity | ].
  destruct (Z.eqb_spec (block_end s c) B) as [Heq | _].
  - exfalso. exact (Hall c (or_introl eq_refl) Heq).
  - apply IH. intros d Hd. apply Hall. right. exact Hd.
Qed.

(** X3.  On a free list that reaches [NULL], [find_prev] returns: it yields a
    member of the list that ends exactly where the block begins, and
    [NULL] only when the list has no such member. *)
Theorem find_prev_finds_predecessor (fuel : nat) (s : state) (l : list Z) (B : Z) :
  chain s (HEAD s) l -> (length l < fuel)%nat ->
  exists r, find_prev fuel s B = Ret r /\
    (r = NULL -> forall c, In c l -> block_end s c <> B) /\
    (r <> NULL -> In r l /\ block_end s r = B).
Proof.
  intros Hc Hf. unfold find_prev.
  rewrite (find_prev_from_chain s B l _ fuel Hc Hf).
  destruct (find (fun c => block_end s c =? B) l) as [P |] eqn:Hfind; simpl.
  - apply find_some in Hfind as [Hin Hend]. apply Z.eqb_eq in Hend.
    exists P. split; [ reflexivity | ]. split.
    + intros HP. exfalso. exact (chain_not_null s l _ P Hc Hin HP).
    + intros _. split; assumption.
  - exists NULL. split; [ reflexivity | ]. split.
    + intros _ c Hin Hend.
      pose proof (find_none _ _ Hfind c Hin) as Hno. simpl in Hno.
      apply Z.eqb_neq in Hno. contradiction.
    + intros Hn. congruence.
Qed.

Lemma find_prev_finds_predecessor_witness :
  exists r, find_prev 4 three_free_blocks 4264 = Ret r /\
    (r = NULL -> forall c, In c [4096; 4200; 4400] -> block_end three_free_blocks c <> 4264) /\
    (r <> NULL -> In r [4096; 4200; 4400] /\ block_end three_free_blocks r = 4264).
Proof.
  apply (find_prev_finds_predecessor 4 three_free_blocks [4096; 4200; 4400] 4264).
  - vm_compute. repeat split; discriminate.
  - simpl. lia.
Defined.

(** X4.  On a free list that reaches [NULL], [find_next] returns the address
    one past the block when a list member starts there, and [NULL]
    otherwise. *)
Theorem find_next_finds_successor (fuel : nat) (s : state) (l : list Z) (B : Z) :
  chain s (HEAD s) l -> (length l < fuel)%nat ->
  exists r, find_next fuel s B = Ret r /\
    (In (block_end s B) l -> r = block_end s B) /\
    (~ In (block_end s B) l -> r = NULL).
Proof.
  intros Hc Hf. unfold find_next.
  rewrite (find_next_from_chain s (block_end s B) l _ fuel Hc Hf).
  destruct (find_address (block_end s B) l) as [Hyes Hno].
  eexists. split; [ reflexivity | ]. split.
  - intros Hin. rewrite (Hyes Hin). reflexivity.
  - intros Hout. rewrite (Hno Hout). reflexivity.
Qed.

Lemma find_next_finds_successor_witness :
  exists r, find_next 3 new_block_at_head 4096 = Ret r /\
    (In (block_end new_block_at_head 4096) [4176; 4096] ->
     r = block_end new_block_at_head 4096) /\
    (~ In (block_end new_block_at_head 4096) [4176; 4096] -> r = NULL).
Proof.
  apply (find_next_finds_successor 3 new_block_at_head [4176; 4096] 4096).
  - vm_compute. repeat split; discriminate.
  - simpl. lia.
Defined.

(** ** [remove_free_block] *)

Lemma remove_from_absent s b l : forall p fuel,
  chain s p l -> ~ In b l -> b <> NULL -> (length l < fuel)%nat ->
  remove_from fuel s p b = Ret s.
Proof.
  induction l as [| x l IH]; intros p fuel Hc Hout Hb Hf;
    (destruct fuel as [| fuel]; [ simpl in Hf; lia | ]).
  - simpl in Hc. subst p. reflexivity.
  - destruct Hc as (-> & Hx & Hc). simpl.
    destruct (Z.eqb_spec x NULL) as [Hn | _]; [ contradiction | ].
    destruct (Z.eqb_spec (load_next s x) b) as [Heq | _].
    + exfalso. destruct l as [| y l]; simpl in Hc.
      * congruence.
      * destruct Hc as (Hy & _). apply Hout. right. left. congruence.
    + apply IH; [ exact Hc | | exact Hb | simpl in Hf; lia ].
      intros Hin. apply Hout. right. exact Hin.
Qed.

Lemma remove_from_present s b l2 : forall l1 p fuel,
  l1 <> [] ->
  chain s p (l1 ++ b :: l2) -> (length (l1 ++ b :: l2) < fuel)%nat ->
  remove_from fuel s p b = Ret (store_next s (List.last l1 NULL) (load_next s b)).
Proof.
  induction l1 as [| x l1 IH]; intros p fuel Hne Hc Hf; [ congruence | ].
  destruct fuel as [| fuel]; [ simpl in Hf; lia | ].
  pose proof (chain_NoDup s _ _ Hc) as Hnd.
  destruct Hc as (-> & Hx & Hc). simpl remove_from.
  destruct (Z.eqb_spec x NULL) as [Hn | _]; [ contradiction | ].
  destruct l1 as [| y l1].
  - simpl in Hc. destruct Hc as (Hnx & _).
    destruct (Z.eqb_spec (load_next s x) b) as [_ | Hne']; [ reflexivity | contradiction ].
  - pose proof Hc as (Hy & _). simpl in Hy.
    destruct (Z.eqb_spec (load_next s x) b) as [Heq | _].
    + exfalso. assert (Hyb : y = b) by congruence.
      simpl in Hnd. apply NoDup_cons_iff in Hnd as [_ Hnd'].
      apply NoDup_cons_iff in Hnd' as [Hnotin _]. apply Hnotin.
      rewrite Hyb. apply in_or_app. right. left. reflexivity.
    + change (List.last (x :: y :: l1) NULL) with (List.last (y :: l1) NULL).
      apply IH; [ discriminate | exact Hc | simpl in Hf; simpl; lia ].
Qed.

(** X5.  Removing a member [b] of the free list leaves the other blocks linked
    in their order, and [b] is no longer among them; no size changes. *)
Theorem remove_free_block_unlinks
    (fuel : nat) (s : state) (l1 l2 : list Z) (b : Z) :
  chain s (HEAD s) (l1 ++ b :: l2) -> (length (l1 ++ b :: l2) < fuel)%nat ->
  exists s',
    remove_free_block fuel s b = Ret s' /\
    chain s' (HEAD s') (l1 ++ l2) /\
    ~ In b (l1 ++ l2) /\
    size_of s' = size_of s.
Proof.
  intros Hc Hf.
  pose proof (chain_NoDup s _ _ Hc) as Hnd.
  assert (Hnotin : ~ In b (l1 ++ l2)).
  { apply NoDup_remove_2 in Hnd. exact Hnd. }
  unfold remove_free_block.
  destruct l1 as [| x l1].
  - simpl in Hc. destruct Hc as (Hh & Hb & Hc).
    destruct (Z.eqb_spec (HEAD s) b) as [_ | Hne]; [ | contradiction ].
    eexists. split; [ reflexivity | ].
    split; [ | split; [ exact Hnotin | reflexivity ] ].
    simpl. apply (chain_frame s); [ reflexivity | exact Hc ].
  - pose proof Hc as (Hh & _). simpl in Hh.
    destruct (Z.eqb_spec (HEAD s) b) as [Heq | _].
    + exfalso. apply Hnotin. left. congruence.
    + rewrite (remove_from_present s b l2 (x :: l1) _ fuel ltac:(discriminate) Hc Hf).
      eexists. split; [ reflexivity | ].
      split; [ | split; [ exact Hnotin | reflexivity ] ].
      apply (chain_unlink s b l2 (x :: l1) _ ltac:(discriminate) Hc).
Qed.

Lemma remove_free_block_unlinks_witness :
  exists s',
    remove_free_block 4 three_free_blocks 4200 = Ret s' /\
    chain s' (HEAD s') ([4096] ++ [4400]) /\
    ~ In 4200 ([4096] ++ [4400]) /\
    size_of s' = size_of three_free_blocks.
Proof.
  apply (remove_free_block_unlinks 4 three_free_blocks [4096] [4400] 4200).
  - vm_compute. repeat split; discriminate.
  - simpl. lia.
Defined.

(** X6.  Removing a block that is not in the free list changes nothing. *)
Theorem remove_free_block_absent (fuel : nat) (s : state) (l : list Z) (b : Z) :
  chain s (HEAD s) l -> (length l < fuel)%nat ->
  b <> NULL -> ~ In b l ->
  remove_free_block fuel s b = Ret s.
Proof.
  intros Hc Hf Hb Hout. unfold remove_free_block.
  destruct (Z.eqb_spec (HEAD s) b) as [Heq | _].
  - exfalso. destruct l as [| x l]; simpl in Hc.
    + congruence.
    + destruct Hc as (Hh & _). apply Hout. left. congruence.
  - exact (remove_from_absent s b l _ fuel Hc Hout Hb Hf).
Qed.

Lemma remove_free_block_absent_witness :
  remove_free_block 4 three_free_blocks 4300 = Ret three_free_blocks.
Proof.
  apply (remove_free_block_absent 4 three_free_blocks [4096; 4200; 4400] 4300).
  - vm_compute. repeat split; discriminate.
  - simpl. lia.
  - discriminate.
  - intros [H | [H | [H | []]]]; discriminate.
Defined.

(** ** [coalesce] without a predecessor *)

Lemma coalesce_no_prev (fuel : nat) (s : state) (l : list Z) (B : Z) :
  chain s (HEAD s) l -> (length l < fuel)%nat ->
  B <> NULL ->
  (forall c, In c l -> block_end s c <> B) ->
  coalesce fuel s B
    = Ret (B, absorb_next s B (default NULL (find (fun c => c =? block_end s B) l))).
Proof.
  intros Hc Hf HB Hnone. unfold coalesce.
  destruct (Z.eqb_spec B NULL) as [Hn | _]; [ contradiction | ].
  unfold find_prev, find_next.
  rewrite (find_prev_from_chain s B l _ fuel Hc Hf), (find_end_none s B l Hnone).
  rewrite (find_next_from_chain s (block_end s B) l _ fuel Hc Hf).
  reflexivity.
Qed.

(** X7.  A block with no address-adjacent neighbour in the free list comes back
    from [coalesce] as it went in: same block, same state. *)
Theorem coalesce_isolated_block (fuel : nat) (s : state) (l : list Z) (B : Z) :
  chain s (HEAD s) l -> (length l < fuel)%nat ->
  B <> NULL ->
  (forall c, In c l -> block_end s c <> B) ->
  ~ In (block_end s B) l ->
  coalesce fuel s B = Ret (B, s).
Proof.
  intros Hc Hf HB Hnone Hout.
  rewrite (coalesce_no_prev fuel s l B Hc Hf HB Hnone).
  destruct (find_address (block_end s B) l) as [_ Hno].
  rewrite (Hno Hout). reflexivity.
Qed.

Lemma coalesce_isolated_block_witness :
  coalesce 4 three_free_blocks 4200 = Ret (4200, three_free_blocks).
Proof.
  apply (coalesce_isolated_block 4 three_free_blocks [4096; 4200; 4400] 4200).
  - vm_compute. repeat split; discriminate.
  - simpl. lia.
  - discriminate.
  - intros c [<- | [<- | [<- | []]]]; vm_compute; discriminate.
  - vm_compute. intros [H | [H | [H | []]]]; discriminate.
Defined.

(** X8.  A block with no free address-predecessor but with a free
    address-successor [N] absorbs it: its size grows by [header_size] plus
    [N]'s size, it takes over [N]'s next, and it ends where [N] ended. *)
Theorem coalesce_absorbs_successor (fuel : nat) (s : state) (l : list Z) (B : Z) :
  chain s (HEAD s) l -> (length l < fuel)%nat ->
  B <> NULL ->
  (forall c, In c l -> block_end s c <> B) ->
  In (block_end s B) l -> block_end s B <> B ->
  exists s',
    coalesce fuel s B = Ret (B, s') /\
    load_size s' B
      = size_t (load_size s B + header_size + load_size s (block_end s B)) /\
    load_next s' B = load_next s (block_end s B) /\
    block_end s' B = block_end s (block_end s B) /\
    HEAD s' = HEAD s /\
    (forall b, b <> B ->
       load_size s' b = load_size s b /\ load_next s' b = load_next s b).
Proof.
  intros Hc Hf HB Hnone Hin HNB.
  rewrite (coalesce_no_prev fuel s l B Hc Hf HB Hnone).
  destruct (find_address (block_end s B) l) as [Hyes _].
  rewrite (Hyes Hin). simpl.
  pose proof (chain_not_null s l _ _ Hc Hin) as HN.
  destruct (absorb_next_spec s B (block_end s B) HN eq_refl HNB)
    as (Hsz & Hnx & Hhd & Hfr).
  eexists. split; [ reflexivity | ].
  split; [ exact Hsz | ].
  split; [ exact Hnx | ].
  split; [ | split; [ exact Hhd | exact Hfr ] ].
  unfold block_end at 1. rewrite Hsz. apply end_after_absorb. reflexivity.
Qed.

Lemma coalesce_absorbs_successor_witness :
  exists s',
    coalesce 3 new_block_at_head 4096 = Ret (4096, s') /\
    load_size s' 4096
      = size_t (load_size new_block_at_head 4096 + header_size
                + load_size new_block_at_head (block_end new_block_at_head 4096)) /\
    load_next s' 4096 = load_next new_block_at_head (block_end new_block_at_head 4096) /\
    block_end s' 4096 = block_end new_block_at_head (block_end new_block_at_head 4096) /\
    HEAD s' = HEAD new_block_at_head /\
    (forall b, b <> 4096 ->
       load_size s' b = load_size new_block_at_head b /\
       load_next s' b = load_next new_block_at_head b).
Proof.
  apply (coalesce_absorbs_successor 3 new_block_at_head [4176; 4096] 4096).
  - vm_compute. repeat split; discriminate.
  - simpl. lia.
  - discriminate.
  - intros c [<- | [<- | []]]; vm_compute; discriminate.
  - vm_compute. left. reflexivity.
  - vm_compute. discriminate.
Defined.

(** ** [split]: the two halves *)

(** X9.  After a successful [split] the shrunk block ends exactly where the
    remainder's header begins, and the remainder ends where the original
    block ended: the two blocks tile the original one. *)
Theorem split_tiles_block (s : state) (B R : Z) :
  0 < B < 2 ^ 64 ->
  0 <= R < 2 ^ 31 ->
  R + header_size <= load_size s B ->
  B + header_size + load_size s B <= 2 ^ 64 ->
  let s' := snd (split s B R) in
  let T := B + R + header_size in
  block_end s' B = T /\ block_end s' T = block_end s B.
Proof.
  intros HB HR Hroom Hfit. unfold header_size in *.
  assert (Hguard : size_t (size_t R + 16) = R + 16).
  { rewrite (size_t_small R) by lia. apply size_t_small. lia. }
  unfold split, header_size. rewrite Hguard.
  destruct (Z.ltb_spec (load_size s B) (R + 16)) as [Hlt | _]; [ lia | ]. simpl.
  assert (HT : ptr_add (ptr_add B R) 16 = B + R + 16).
  { rewrite (ptr_add_small B R) by lia. apply ptr_add_small. lia. }
  rewrite HT. unfold block_end, header_size. loads.
  destruct (decide (B = B)) as [_ | Hne]; [ | congruence ].
  destruct (decide (B = B + R + 16)) as [Heq | _]; [ lia | ].
  destruct (decide (B + R + 16 = B + R + 16)) as [_ | Hne]; [ | congruence ].
  rewrite !(size_t_small R) by lia.
  rewrite (size_t_small (load_size s B - R)) by lia.
  rewrite (size_t_small (load_size s B - R - 16)) by lia.
  rewrite !ptr_add_add. split; [ apply Z.mod_small; lia | f_equal; lia ].
Qed.

Lemma split_tiles_block_witness :
  block_end (snd (split one_free_block 4096 16)) 4096 = 4096 + 16 + header_size /\
  block_end (snd (split one_free_block 4096 16)) (4096 + 16 + header_size)
    = block_end one_free_block 4096.
Proof.
  apply (split_tiles_block one_free_block 4096 16).
  - lia.
  - lia.
  - vm_compute. discriminate.
  - vm_compute. discriminate.
Defined.

(** ** The OS primitive *)

Lemma sbrk_granted (s : state) (sz : Z) :
  0 <= program_break s -> 0 <= sz ->
  program_break s + sz + header_size <= break_limit s ->
  break_limit s < 2 ^ 63 ->
  sbrk s (size_t (sz + header_size))
    = (program_break s, set_program_break s (program_break s + sz + header_size)) /\
  program_break s <> SBRK_FAILED.
Proof.
  intros Hb Hsz Hroom Hlim. unfold sbrk, header_size in *.
  rewrite (size_t_small (sz + 16)) by lia.
  assert (Hincr : to_intptr (sz + 16) = sz + 16).
  { unfold to_intptr. rewrite Z.mod_small by lia. lia. }
  rewrite Hincr.
  destruct (Z.leb_spec 0 (program_break s + (sz + 16))) as [_ | Hneg]; [ | lia ].
  destruct (Z.leb_spec (program_break s + (sz + 16)) (break_limit s))
    as [_ | Hover]; [ | lia ].
  simpl. split; [ | unfold SBRK_FAILED; lia ].
  f_equal. f_equal. lia.
Qed.

Lemma sbrk_refused (s : state) (sz : Z) :
  0 <= sz -> sz + header_size < 2 ^ 63 ->
  break_limit s < program_break s + sz + header_size ->
  sbrk s (size_t (sz + header_size)) = (SBRK_FAILED, s).
Proof.
  intros Hsz Hsmall Hover. unfold sbrk, header_size in *.
  rewrite (size_t_small (sz + 16)) by lia.
  assert (Hincr : to_intptr (sz + 16) = sz + 16).
  { unfold to_intptr. rewrite Z.mod_small by lia. lia. }
  rewrite Hincr.
  destruct (Z.leb_spec (program_break s + (sz + 16)) (break_limit s))
    as [Hle | _]; [ lia | ].
  rewrite andb_false_r. reflexivity.
Qed.

(** ** [do_alloc] *)

(** X10.  When the OS refuses the memory, [do_alloc] returns [NULL] and nothing
    has changed. *)
Theorem do_alloc_refused (fuel : nat) (s : state) (size : Z) :
  0 <= size -> size + header_size < 2 ^ 63 ->
  break_limit s < program_break s + size + header_size ->
  do_alloc fuel s size = Ret (NULL, s).
Proof.
  intros Hsz Hsmall Hover. unfold do_alloc.
  rewrite (sbrk_refused s size Hsz Hsmall Hover). reflexivity.
Qed.

Lemma do_alloc_refused_witness :
  do_alloc 0 one_free_block 100000 = Ret (NULL, one_free_block).
Proof.
  apply (do_alloc_refused 0 one_free_block 100000).
  - lia.
  - unfold header_size. lia.
  - vm_compute. reflexivity.
Defined.

(** The state in which [do_alloc] calls [coalesce]. *)
Lemma do_alloc_unfold (fuel : nat) (s : state) (size : Z) :
  0 <= program_break s -> 0 <= size ->
  program_break s + size + header_size <= break_limit s ->
  break_limit s < 2 ^ 63 ->
  let brk := program_break s in
  let s3 := set_HEAD
              (store_next
                 (store_size (set_program_break s (brk + size + header_size)) brk size)
                 brk (HEAD s))
              brk in
  do_alloc fuel s size
    = ('(merged, s4) ← coalesce fuel s3 brk;
       Ret (brk + header_size, set_HEAD s4 merged)).
Proof.
  intros Hb Hsz Hroom Hlim. unfold do_alloc.
  destruct (sbrk_granted s size Hb Hsz Hroom Hlim) as [-> Hok].
  destruct (Z.eqb_spec (program_break s) SBRK_FAILED) as [Hbad | _]; [ contradiction | ].
  simpl. rewrite (ptr_add_small (program_break s) header_size)
    by (unfold header_size in *; lia).
  reflexivity.
Qed.

Lemma block_end_same_size (s s' : state) (c : Z) :
  load_size s' c = load_size s c -> block_end s' c = block_end s c.
Proof. intros H. unfold block_end. rewrite H. reflexivity. Qed.

(** X11.  With room above the break and no free block ending at the break,
    [do_alloc] puts the new block in front of the free list, which is
    otherwise unchanged, and returns the payload of that very block; the
    cursor is not touched. *)
Theorem do_alloc_prepends (fuel : nat) (s : state) (l : list Z) (size : Z) :
  chain s (HEAD s) l -> (S (length l) < fuel)%nat ->
  0 < program_break s -> 0 <= size ->
  program_break s + size + header_size <= break_limit s ->
  break_limit s < 2 ^ 63 ->
  ~ In (program_break s) l ->
  (forall c, In c l -> block_end s c <> program_break s) ->
  ~ In (program_break s + size + header_size) l ->
  exists s',
    do_alloc fuel s size = Ret (program_break s + header_size, s') /\
    HEAD s' = program_break s /\
    chain s' (HEAD s') (program_break s :: l) /\
    load_size s' (program_break s) = size /\
    next_fit_ptr s' = next_fit_ptr s /\
    program_break s' = program_break s + size + header_size /\
    (forall b, b <> program_break s ->
       load_size s' b = load_size s b /\ load_next s' b = load_next s b).
Proof.
  intros Hc Hf Hb Hsz Hroom Hlim Hfresh Hnoprev Hnonext.
  rewrite (do_alloc_unfold fuel s size ltac:(lia) Hsz Hroom Hlim).
  set (brk := program_break s) in *.
  set (s3 := set_HEAD _ brk).
  assert (Hsize3 : forall c, c <> brk -> load_size s3 c = load_size s c).
  { intros c Hne. unfold s3. loads.
    destruct (decide (brk = c)); [ congruence | reflexivity ]. }
  assert (Hnext3 : forall c, c <> brk -> load_next s3 c = load_next s c).
  { intros c Hne. unfold s3. loads.
    destruct (decide (brk = c)); [ congruence | reflexivity ]. }
  assert (Hsz3 : load_size s3 brk = size).
  { unfold s3. loads. destruct (decide (brk = brk)); congruence. }
  assert (Hnx3 : load_next s3 brk = HEAD s).
  { unfold s3. loads. destruct (decide (brk = brk)); congruence. }
  assert (Hend3 : block_end s3 brk = brk + size + header_size).
  { unfold block_end. rewrite Hsz3, ptr_add_add.
    apply Z.mod_small. unfold header_size in *. lia. }
  assert (Hc3 : chain s3 (HEAD s3) (brk :: l)).
  { simpl. split; [ reflexivity | ]. split; [ unfold NULL; lia | ].
    rewrite Hnx3. apply (chain_frame s); [ | exact Hc ].
    intros x Hx. apply Hnext3. intros ->. contradiction. }
  rewrite (coalesce_no_prev fuel s3 (brk :: l) brk Hc3 Hf ltac:(unfold NULL; lia)).
  - destruct (find_address (block_end s3 brk) (brk :: l)) as [_ Hno].
    rewrite Hno.
    + simpl. exists (set_HEAD s3 brk). split; [ reflexivity | ].
      split; [ reflexivity | ]. split; [ exact Hc3 | ].
      split; [ exact Hsz3 | ]. split; [ reflexivity | ].
      split; [ reflexivity | ].
      intros b Hne. split; [ apply Hsize3 | apply Hnext3 ]; exact Hne.
    + rewrite Hend3. intros [Heq | Hin]; [ unfold header_size in *; lia | contradiction ].
  - intros c [<- | Hin].
    + rewrite Hend3. unfold header_size in *. lia.
    + assert (Hne : c <> brk) by (intros ->; contradiction).
      rewrite (block_end_same_size s s3 c (Hsize3 c Hne)). exact (Hnoprev c Hin).
Qed.

Lemma do_alloc_prepends_witness :
  exists s',
    do_alloc 5 three_free_blocks 64 = Ret (8192 + header_size, s') /\
    HEAD s' = 8192 /\
    chain s' (HEAD s') [8192; 4096; 4200; 4400] /\
    load_size s' 8192 = 64 /\
    next_fit_ptr s' = NULL.
Proof.
  assert (Hc : chain three_free_blocks (HEAD three_free_blocks) [4096; 4200; 4400]).
  { vm_compute. repeat split; discriminate. }
  assert (Hf : (S (length [4096; 4200; 4400]) < 5)%nat) by (simpl; lia).
  assert (H1 : 0 < program_break three_free_blocks) by (vm_compute; reflexivity).
  assert (H2 : 0 <= 64) by lia.
  assert (H3 : program_break three_free_blocks + 64 + header_size
               <= break_limit three_free_blocks) by (vm_compute; discriminate).
  assert (H4 : break_limit three_free_blocks < 2 ^ 63) by (vm_compute; reflexivity).
  assert (H5 : ~ In (program_break three_free_blocks) [4096; 4200; 4400]).
  { vm_compute. intros [H | [H | [H | []]]]; discriminate. }
  assert (H6 : forall c, In c [4096; 4200; 4400] ->
                 block_end three_free_blocks c <> program_break three_free_blocks).
  { intros c [<- | [<- | [<- | []]]]; vm_compute; discriminate. }
  assert (H7 : ~ In (program_break three_free_blocks + 64 + header_size)
                 [4096; 4200; 4400]).
  { vm_compute. intros [H | [H | [H | []]]]; discriminate. }
  destruct (do_alloc_prepends 5 three_free_blocks _ 64 Hc Hf H1 H2 H3 H4 H5 H6 H7)
    as (s' & Hrun & Hhd & Hch & Hsz & Hnf & _).
  exists s'. split; [ exact Hrun | ]. split; [ exact Hhd | ].
  split; [ exact Hch | ]. split; [ exact Hsz | exact Hnf ].
Defined.

Lemma find_first_after {A : Type} (f : A -> bool) (x : A) (l2 : list A) : forall l1,
  (forall c, In c l1 -> f c = false) -> f x = true ->
  find f (l1 ++ x :: l2) = Some x.
Proof.
  induction l1 as [| c l1 IH]; intros Hno Hx; simpl.
  - rewrite Hx. reflexivity.
  - rewrite (Hno c (or_introl eq_refl)). apply IH; [ | exact Hx ].
    intros d Hd. apply Hno. right. exact Hd.
Qed.

Lemma chain_next_in s b l2 :
  chain s b (b :: l2) -> load_next s b = NULL \/ In (load_next s b) l2.
Proof.
  intros (_ & _ & Hc). destruct l2 as [| c l2]; simpl in Hc.
  - left. exact Hc.
  - right. left. destruct Hc as (Hc & _). congruence.
Qed.

Lemma absorb_into_prev_statics (s : state) (P B : Z) :
  next_fit_ptr (snd (absorb_into_prev s P B)) = next_fit_ptr s /\
  program_break (snd (absorb_into_prev s P B)) = program_break s.
Proof.
  unfold absorb_into_prev.
  repeat match goal with |- context [if ?c then _ else _] => destruct c; simpl end;
    split; reflexivity.
Qed.

(** X12.  When the free block [T] ends at the break, [do_alloc] merges the new
    memory into [T] and makes [T] the list head: the list then starts at
    [T], so the blocks that were linked in front of [T] are no longer in
    it.  The pointer returned lies inside [T], which stays in the list and
    now ends at the new break. *)
Theorem do_alloc_merges_into_top_block
    (fuel : nat) (s : state) (l1 l2 : list Z) (T size : Z) :
  chain s (HEAD s) (l1 ++ T :: l2) ->
  (S (length (l1 ++ T :: l2)) < fuel)%nat ->
  0 < program_break s -> 0 <= size ->
  program_break s + size + header_size <= break_limit s ->
  break_limit s < 2 ^ 63 ->
  ~ In (program_break s) (l1 ++ T :: l2) ->
  (forall c, In c l1 -> block_end s c <> program_break s) ->
  block_end s T = program_break s ->
  ~ In (program_break s + size + header_size) (l1 ++ T :: l2) ->
  exists s',
    do_alloc fuel s size = Ret (program_break s + header_size, s') /\
    HEAD s' = T /\
    chain s' (HEAD s') (T :: l2) /\
    load_size s' T = size_t (load_size s T + header_size + size) /\
    block_end s' T = program_break s' /\
    next_fit_ptr s' = next_fit_ptr s.
Proof.
  intros Hc Hf Hb Hsz Hroom Hlim Hfresh Hnoprev Htop Hnonext.
  rewrite (do_alloc_unfold fuel s size ltac:(lia) Hsz Hroom Hlim).
  set (brk := program_break s) in *.
  set (l := l1 ++ T :: l2) in *.
  set (s3 := set_HEAD _ brk).
  assert (HTin : In T l) by (apply in_or_app; right; left; reflexivity).
  assert (HTbrk : T <> brk) by (intros ->; contradiction).
  assert (HTnz : T <> NULL) by exact (chain_not_null s l _ T Hc HTin).
  assert (Hsize3 : forall c, c <> brk -> load_size s3 c = load_size s c).
  { intros c Hne. unfold s3. loads.
    destruct (decide (brk = c)); [ congruence | reflexivity ]. }
  assert (Hnext3 : forall c, c <> brk -> load_next s3 c = load_next s c).
  { intros c Hne. unfold s3. loads.
    destruct (decide (brk = c)); [ congruence | reflexivity ]. }
  assert (Hsz3 : load_size s3 brk = size).
  { unfold s3. loads. destruct (decide (brk = brk)); congruence. }
  assert (Hnx3 : load_next s3 brk = HEAD s).
  { unfold s3. loads. destruct (decide (brk = brk)); congruence. }
  assert (Hend3 : block_end s3 brk = brk + size + header_size).
  { unfold block_end. rewrite Hsz3, ptr_add_add.
    apply Z.mod_small. unfold header_size in *. lia. }
  assert (HendT : block_end s3 T = brk).
  { rewrite (block_end_same_size s s3 T (Hsize3 T HTbrk)). exact Htop. }
  assert (Hc3 : chain s3 (HEAD s3) (brk :: l)).
  { simpl. split; [ reflexivity | ]. split; [ unfold NULL; lia | ].
    rewrite Hnx3. apply (chain_frame s); [ | exact Hc ].
    intros x Hx. apply Hnext3. intros ->. contradiction. }
  assert (Hprev : find (fun c => block_end s3 c =? brk) (brk :: l) = Some T).
  { apply (find_first_after _ T l2 (brk :: l1)).
    - intros c [<- | Hin]; apply Z.eqb_neq.
      + rewrite Hend3. unfold header_size in *. lia.
      + assert (Hcl : In c l) by (apply in_or_app; left; exact Hin).
        assert (Hne : c <> brk) by (intros ->; contradiction).
        rewrite (block_end_same_size s s3 c (Hsize3 c Hne)). exact (Hnoprev c Hin).
    - apply Z.eqb_eq. exact HendT. }
  assert (Hnext : find (fun c => c =? block_end s3 brk) (brk :: l) = None).
  { destruct (find_address (block_end s3 brk) (brk :: l)) as [_ Hno]. apply Hno.
    rewrite Hend3. intros [Heq | Hin]; [ unfold header_size in *; lia | contradiction ]. }
  unfold coalesce.
  destruct (Z.eqb_spec brk NULL) as [Hz | _]; [ unfold NULL in Hz; lia | ].
  unfold find_prev, find_next.
  rewrite (find_prev_from_chain s3 brk (brk :: l) _ fuel Hc3 Hf), Hprev.
  rewrite (find_next_from_chain s3 (block_end s3 brk) (brk :: l) _ fuel Hc3 Hf), Hnext.
  simpl.
  destruct (absorb_into_prev_spec s3 T brk HTnz HendT HTbrk)
    as (Hfst & Hsz1 & Hnx1 & Hhd1 & Hfr1).
  destruct (absorb_into_prev_statics s3 T brk) as [Hnf1 Hbrk1].
  destruct (absorb_into_prev s3 T brk) as [T' s1]. simpl in *. subst T'.
  unfold absorb_next. simpl.
  exists (set_HEAD s1 T). split; [ reflexivity | ].
  split; [ reflexivity | ].
  pose proof (chain_tail s l1 _ T l2 Hc) as HcT.
  pose proof (chain_NoDup s _ _ Hc) as Hnd.
  assert (HnxT : load_next s1 T = load_next s T).
  { rewrite Hnx1, (Hnext3 T HTbrk).
    destruct (decide (load_next s T = brk)) as [Heq | _]; [ | reflexivity ].
    exfalso. destruct (chain_next_in s T l2 HcT) as [Hn | Hin].
    - unfold NULL in Hn. lia.
    - apply Hfresh. rewrite <- Heq. apply in_or_app. right. right. exact Hin. }
  split; [ | split; [ | split; [ | exact Hnf1 ] ] ].
  - apply (chain_frame s (set_HEAD s1 T) (T :: l2) T); [ | exact HcT ].
    intros x [<- | Hin]; [ exact HnxT | ].
    assert (Hxl : In x l) by (apply in_or_app; right; right; exact Hin).
    assert (HxT : x <> T).
    { intros ->. apply NoDup_remove_2 in Hnd. apply Hnd.
      apply in_or_app. right. exact Hin. }
    rewrite load_next_set_HEAD.
    destruct (Hfr1 x HxT) as [_ ->]. apply Hnext3. intros ->. contradiction.
  - change (load_size (set_HEAD s1 T) T) with (load_size s1 T).
    rewrite Hsz1, Hsz3, (Hsize3 T HTbrk). reflexivity.
  - change (block_end (set_HEAD s1 T) T) with (block_end s1 T).
    unfold block_end at 1. rewrite Hsz1.
    rewrite (end_after_absorb s3 T brk HendT), Hend3.
    exact (eq_sym Hbrk1).
Qed.

Lemma do_alloc_merges_into_top_block_witness :
  exists s',
    do_alloc 5 top_block_free 32 = Ret (program_break top_block_free + header_size, s') /\
    HEAD s' = 8112 /\
    chain s' (HEAD s') (8112 :: [4200]) /\
    load_size s' 8112 = size_t (load_size top_block_free 8112 + header_size + 32) /\
    block_end s' 8112 = program_break s' /\
    next_fit_ptr s' = next_fit_ptr top_block_free.
Proof.
  apply (do_alloc_merges_into_top_block 5 top_block_free [4096] [4200] 8112 32).
  - vm_compute. repeat split; discriminate.
  - simpl. lia.
  - vm_compute. reflexivity.
  - lia.
  - vm_compute. discriminate.
  - vm_compute. reflexivity.
  - vm_compute. intros [H | [H | [H | []]]]; discriminate.
  - intros c [<- | []]. vm_compute. discriminate.
  - reflexivity.
  - vm_compute. intros [H | [H | [H | []]]]; discriminate.
Defined.

(** ** [tumalloc]: taking a block out of the list *)

Lemma split_frame (s : state) (b r : Z) :
  let s1 := snd (split s b r) in
  HEAD s1 = HEAD s /\ next_fit_ptr s1 = next_fit_ptr s /\
  (forall x, x <> ptr_add (ptr_add b r) header_size ->
     load_next s1 x = load_next s x).
Proof.
  unfold split.
  destruct (load_size s b <? size_t (size_t r + header_size)); simpl.
  - repeat split.
  - split; [ reflexivity | split; [ reflexivity | ] ].
    intros x Hx. loads.
    destruct (decide (ptr_add (ptr_add b r) header_size = x)); congruence.
Qed.

Lemma last_cons (l : list Z) : forall x d, List.last (x :: l) d = List.last l x.
Proof.
  induction l as [| y l IH]; intros x d; [ reflexivity | ].
  change (List.last (x :: y :: l) d) with (List.last (y :: l) d).
  rewrite (IH y d), (IH y x). reflexivity.
Qed.

Lemma first_fit_after_small s size b l2 : forall l1 pv,
  Forall (fun c => load_size s c < size) l1 ->
  size <= load_size s b ->
  first_fit s size pv (l1 ++ b :: l2) = Some (b, List.last l1 pv).
Proof.
  induction l1 as [| x l1 IH]; intros pv Hsmall Hfit; simpl first_fit.
  - destruct (Z.leb_spec size (load_size s b)); [ reflexivity | lia ].
  - inversion Hsmall as [| ? ? Hx Hrest]. subst.
    destruct (Z.leb_spec size (load_size s x)); [ lia | ].
    rewrite (IH x Hrest Hfit), last_cons. reflexivity.
Qed.

Lemma after_split_frame (s : state) (size b : Z) (l : list Z) :
  ((size_t (size + header_size) <? load_size s b) = true ->
   ~ In (ptr_add (ptr_add b (to_int size)) header_size) l) ->
  HEAD (after_split s size b) = HEAD s /\
  (forall x, In x l -> load_next (after_split s size b) x = load_next s x).
Proof.
  intros HT. unfold after_split.
  destruct (size_t (size + header_size) <? load_size s b).
  - destruct (split_frame s b (to_int size)) as (Hh & _ & Hfr).
    split; [ exact Hh | ].
    intros x Hx. apply Hfr. intros ->. exact (HT eq_refl Hx).
  - split; reflexivity.
Qed.

Lemma take_block_unfold (s : state) (size curr prev : Z) :
  take_block s size curr prev
  = (let s1 := after_split s size curr in
     let s2 := if prev =? NULL
               then set_HEAD s1 (load_next s1 curr)
               else store_next s1 prev (load_next s1 curr) in
     (ptr_add curr header_size,
      set_next_fit_ptr s2
        (if load_next s2 curr =? NULL then HEAD s2 else load_next s2 curr))).
Proof. reflexivity. Qed.

(** Taking the first block of a chain with no predecessor in hand. *)
Lemma take_block_at_start (s : state) (size b : Z) (l2 : list Z) :
  chain s b (b :: l2) ->
  ((size_t (size + header_size) <? load_size s b) = true ->
   ~ In (ptr_add (ptr_add b (to_int size)) header_size) (b :: l2)) ->
  let s' := snd (take_block s size b NULL) in
  HEAD s' = load_next s b /\
  next_fit_ptr s' = load_next s b /\
  chain s' (HEAD s') l2.
Proof.
  intros Hc HT. rewrite take_block_unfold. simpl.
  destruct (after_split_frame s size b (b :: l2) HT) as [_ Hfr].
  set (s1 := after_split s size b) in *.
  assert (Hb : load_next s1 b = load_next s b) by (apply Hfr; left; reflexivity).
  rewrite !load_next_set_HEAD, Hb.
  split; [ reflexivity | ].
  split; [ destruct (load_next s b =? NULL); reflexivity | ].
  destruct Hc as (_ & _ & Hc). apply (chain_frame s); [ | exact Hc ].
  intros x Hx. apply (Hfr x). right. exact Hx.
Qed.

(** Taking a block that the search reached through its list predecessor. *)
Lemma take_block_after_prev (s : state) (size b p : Z) (l1 l2 : list Z) :
  l1 <> [] ->
  chain s p (l1 ++ b :: l2) ->
  ((size_t (size + header_size) <? load_size s b) = true ->
   ~ In (ptr_add (ptr_add b (to_int size)) header_size) (l1 ++ b :: l2)) ->
  let s' := snd (take_block s size b (List.last l1 NULL)) in
  HEAD s' = HEAD s /\
  next_fit_ptr s' = hd (HEAD s) l2 /\
  chain s' p (l1 ++ l2).
Proof.
  intros Hne Hc HT. rewrite take_block_unfold. simpl.
  destruct (after_split_frame s size b (l1 ++ b :: l2) HT) as [Hh Hfr].
  set (s1 := after_split s size b) in *.
  assert (Hc1 : chain s1 p (l1 ++ b :: l2)) by (apply (chain_frame s); assumption).
  pose proof (chain_NoDup s1 _ _ Hc1) as Hnd.
  pose proof (last_in l1 NULL Hne) as Hlast.
  assert (Hpnz : List.last l1 NULL <> NULL).
  { apply (chain_not_null s1 _ _ _ Hc1). apply in_or_app. left. exact Hlast. }
  assert (Hpb : List.last l1 NULL <> b).
  { intros Heq. apply NoDup_remove_2 in Hnd. apply Hnd.
    apply in_or_app. left. rewrite <- Heq. exact Hlast. }
  destruct (Z.eqb_spec (List.last l1 NULL) NULL) as [Hz | _]; [ contradiction | ].
  simpl. rewrite load_next_store_next.
  destruct (decide (List.last l1 NULL = b)) as [Heq | _]; [ contradiction | ].
  split; [ exact Hh | ].
  split;
    [ | apply (chain_frame (store_next s1 (List.last l1 NULL) (load_next s1 b)));
        [ reflexivity | exact (chain_unlink s1 b l2 l1 p Hne Hc1) ] ].
  pose proof (chain_tail s1 l1 p b l2 Hc1) as (_ & _ & Hc2).
  rewrite Hh. destruct l2 as [| c l2]; simpl in Hc2.
  - rewrite Hc2. reflexivity.
  - destruct Hc2 as (-> & Hcnz & _).
    destruct (Z.eqb_spec c NULL) as [Hz | _]; [ contradiction | reflexivity ].
Qed.

(** X13.  With the cursor unset, a hit takes the chosen block, and only it, out
    of the free list: the blocks before and after it stay linked in their
    order, and the cursor moves to the block that followed the chosen one
    (to the list head when none did).  The address where [split] may write
    the remainder header must not be a list member. *)
Theorem tumalloc_unlinks_chosen_block
    (fuel : nat) (s : state) (l1 l2 : list Z) (b n : Z) :
  next_fit_ptr s = NULL ->
  chain s (HEAD s) (l1 ++ b :: l2) -> (length (l1 ++ b :: l2) < fuel)%nat ->
  Forall (fun c => load_size s c < align_up n) l1 ->
  align_up n <= load_size s b ->
  ((size_t (align_up n + header_size) <? load_size s b) = true ->
   ~ In (ptr_add (ptr_add b (to_int (align_up n))) header_size) (l1 ++ b :: l2)) ->
  exists s',
    tumalloc fuel s n = Ret (ptr_add b header_size, s') /\
    chain s' (HEAD s') (l1 ++ l2) /\
    ~ In b (l1 ++ l2) /\
    next_fit_ptr s' = hd (HEAD s') l2.
Proof.
  intros Hcur Hc Hf Hsmall Hfit HT.
  assert (Hstart : search_start s = HEAD s).
  { unfold search_start. rewrite Hcur. reflexivity. }
  pose proof Hc as Hc'. rewrite <- Hstart in Hc'.
  rewrite (tumalloc_on_chain fuel s _ n Hc' Hf).
  rewrite (first_fit_after_small s (align_up n) b l2 l1 NULL Hsmall Hfit).
  pose proof (chain_NoDup s _ _ Hc) as Hnd.
  apply NoDup_remove_2 in Hnd.
  destruct l1 as [| x l1].
  - change ([] ++ b :: l2) with (b :: l2) in *.
    change ([] ++ l2) with l2 in *.
    change (List.last [] NULL) with NULL.
    assert (Hcb : chain s b (b :: l2)) by (destruct Hc as (_ & Hc); simpl; auto).
    destruct (take_block_at_start s (align_up n) b l2 Hcb HT) as (Hh & Hnf & Hch).
    destruct (take_block_result s (align_up n) b NULL) as (Hp & _).
    destruct (take_block s (align_up n) b NULL) as [p s'].
    simpl in Hh, Hnf, Hch, Hp. subst p.
    exists s'. split; [ reflexivity | ].
    split; [ exact Hch | ]. split; [ exact Hnd | ].
    rewrite Hnf, Hh. destruct l2 as [| c l2]; [ reflexivity | ].
    destruct Hcb as (_ & _ & Hc2 & _). simpl. congruence.
  - destruct (take_block_after_prev s (align_up n) b (HEAD s) (x :: l1) l2
                ltac:(discriminate) Hc HT) as (Hh & Hnf & Hch).
    destruct (take_block_result s (align_up n) b (List.last (x :: l1) NULL)) as (Hp & _).
    destruct (take_block s (align_up n) b (List.last (x :: l1) NULL)) as [p s'].
    simpl in Hh, Hnf, Hch, Hp. subst p.
    exists s'. split; [ reflexivity | ].
    split; [ rewrite Hh; exact Hch | ]. split; [ exact Hnd | ].
    rewrite Hnf, Hh. reflexivity.
Qed.

Lemma tumalloc_unlinks_chosen_block_witness :
  exists s',
    tumalloc 4 three_free_blocks 32 = Ret (ptr_add 4200 header_size, s') /\
    chain s' (HEAD s') ([4096] ++ [4400]) /\
    ~ In 4200 ([4096] ++ [4400]) /\
    next_fit_ptr s' = hd (HEAD s') [4400].
Proof.
  apply (tumalloc_unlinks_chosen_block 4 three_free_blocks [4096] [4400] 4200 32).
  - reflexivity.
  - vm_compute. repeat split; discriminate.
  - simpl. lia.
  - constructor; [ vm_compute; reflexivity | constructor ].
  - vm_compute. discriminate.
  - vm_compute. discriminate.
Defined.

(** X14.  When the cursor is set and its block fits, that block is handed out
    and [HEAD] is overwritten with the block's successor: the free list
    then consists of the blocks that followed the cursor only, so every
    block that was linked in front of the cursor has left the list. *)
Theorem tumalloc_hit_at_cursor_cuts_list
    (fuel : nat) (s : state) (l1 l2 : list Z) (c n : Z) :
  next_fit_ptr s = c ->
  chain s (HEAD s) (l1 ++ c :: l2) ->
  align_up n <= load_size s c ->
  ((size_t (align_up n + header_size) <? load_size s c) = true ->
   ~ In (ptr_add (ptr_add c (to_int (align_up n))) header_size) (c :: l2)) ->
  exists s',
    tumalloc (S fuel) s n = Ret (ptr_add c header_size, s') /\
    HEAD s' = load_next s c /\
    chain s' (HEAD s') l2.
Proof.
  intros Hcur Hc Hfit HT.
  pose proof (chain_tail s l1 _ c l2 Hc) as Hcc.
  pose proof Hcc as (_ & Hnz & _).
  unfold tumalloc, search_start. rewrite Hcur.
  destruct (Z.eqb_spec c NULL) as [Hz | _]; [ contradiction | ].
  simpl search.
  destruct (Z.eqb_spec c NULL) as [Hz | _]; [ contradiction | ].
  destruct (Z.leb_spec (align_up n) (load_size s c)) as [_ | Hlt]; [ | lia ].
  destruct (take_block_at_start s (align_up n) c l2 Hcc HT) as (Hh & _ & Hch).
  destruct (take_block_result s (align_up n) c NULL) as (Hp & _).
  destruct (take_block s (align_up n) c NULL) as [p s'].
  simpl in *. subst p.
  exists s'. split; [ reflexivity | split; assumption ].
Qed.

Lemma tumalloc_hit_at_cursor_cuts_list_witness :
  exists s',
    tumalloc 1 cursor_on_second 16 = Ret (ptr_add 4096 header_size, s') /\
    HEAD s' = load_next cursor_on_second 4096 /\
    chain s' (HEAD s') [].
Proof.
  apply (tumalloc_hit_at_cursor_cuts_list 0 cursor_on_second [4336] [] 4096 16).
  - reflexivity.
  - vm_compute. repeat split; discriminate.
  - vm_compute. discriminate.
  - vm_compute. discriminate.
Defined.

(** ** [tumalloc]: refusal by the OS *)

Lemma first_fit_none s size l : forall pv,
  Forall (fun b => load_size s b < size) l -> first_fit s size pv l = None.
Proof.
  induction l as [| b l IH]; intros pv Hsmall; simpl; [ reflexivity | ].
  inversion Hsmall as [| ? ? Hb Hrest]. subst.
  destruct (Z.leb_spec size (load_size s b)); [ lia | exact (IH b Hrest) ].
Qed.

(** X15.  When no block from the search start on is large enough and the OS
    refuses to move the break, [tumalloc] returns [NULL] and the allocator
    state, cursor included, is exactly as before. *)
Theorem tumalloc_refused (fuel : nat) (s : state) (l : list Z) (n : Z) :
  chain s (search_start s) l -> (length l < fuel)%nat ->
  Forall (fun b => load_size s b < align_up n) l ->
  align_up n + header_size < 2 ^ 63 ->
  break_limit s < program_break s + align_up n + header_size ->
  tumalloc fuel s n = Ret (NULL, s).
Proof.
  intros Hc Hf Hsmall Hreq Hover.
  rewrite (tumalloc_on_chain fuel s l n Hc Hf), (first_fit_none s _ l NULL Hsmall).
  unfold extend.
  rewrite (sbrk_refused s (align_up n) (align_up_nonneg n) Hreq Hover).
  reflexivity.
Qed.

Lemma tumalloc_refused_witness :
  tumalloc 4 three_free_blocks 60000 = Ret (NULL, three_free_blocks).
Proof.
  apply (tumalloc_refused 4 three_free_blocks [4096; 4200; 4400] 60000).
  - vm_compute. repeat split; discriminate.
  - simpl. lia.
  - repeat constructor.
  - vm_compute. reflexivity.
  - vm_compute. reflexivity.
Defined.

(** ** [tumalloc]: the size of the block handed out *)

Lemma to_int_bounds (x : Z) : 0 <= x -> to_int x <= x /\ to_int x < 2 ^ 31.
Proof.
  intros Hx. unfold to_int.
  pose proof (Z.mod_pos_bound (x + 2 ^ 31) (2 ^ 32) ltac:(lia)) as Hb.
  pose proof (Z.mod_le (x + 2 ^ 31) (2 ^ 32) ltac:(lia) ltac:(lia)) as Hle.
  lia.
Qed.

Lemma to_int_small (x : Z) : 0 <= x < 2 ^ 31 -> to_int x = x.
Proof. intros Hx. unfold to_int. rewrite Z.mod_small by lia. lia. Qed.

Lemma take_block_size_split (s : state) (size b pv : Z) :
  0 <= b < 2 ^ 64 -> 0 <= size ->
  size + header_size < load_size s b -> load_size s b < 2 ^ 64 ->
  0 <= to_int size ->
  load_size (snd (take_block s size b pv)) b = to_int size.
Proof.
  intros Hb Hsz Hbig Hmax Hint. unfold header_size in *.
  destruct (to_int_bounds size Hsz) as [Hle Hlt].
  rewrite take_block_unfold. simpl. unfold after_split, header_size.
  rewrite (size_t_small (size + 16)) by lia.
  destruct (Z.ltb_spec (size + 16) (load_size s b)) as [_ | Hno]; [ | lia ].
  unfold split, header_size.
  rewrite !(size_t_small (to_int size)) by lia.
  rewrite (size_t_small (to_int size + 16)) by lia.
  destruct (Z.ltb_spec (load_size s b) (to_int size + 16)) as [Hbad | _]; [ lia | ].
  simpl.
  assert (HT : ptr_add (ptr_add b (to_int size)) 16 <> b).
  { rewrite ptr_add_add. intros Heq.
    assert (Hm : (b + to_int size + 16) mod 2 ^ 64 = b mod 2 ^ 64).
    { rewrite Heq. symmetry. apply Z.mod_small. lia. }
    destruct (Z.lt_ge_cases (b + to_int size + 16) (2 ^ 64)) as [Hs | Hs].
    - rewrite Z.mod_small in Heq by lia. lia.
    - assert (Hw : (b + to_int size + 16) mod 2 ^ 64 = b + to_int size + 16 - 2 ^ 64).
      { symmetry. apply (Z.mod_unique _ _ 1); lia. }
      lia. }
  destruct (pv =? NULL); simpl; loads;
    destruct (decide (b = b)) as [_ | Hne]; congruence.
Qed.

Lemma take_block_size_whole (s : state) (size b pv : Z) :
  0 <= size -> load_size s b <= size + header_size -> size + header_size < 2 ^ 64 ->
  load_size (snd (take_block s size b pv)) b = load_size s b.
Proof.
  intros Hsz Hsmall Hmax. unfold header_size in *.
  rewrite take_block_unfold. simpl. unfold after_split, header_size.
  rewrite (size_t_small (size + 16)) by lia.
  destruct (Z.ltb_spec (size + 16) (load_size s b)) as [Hno | _]; [ lia | ].
  destruct (pv =? NULL); reflexivity.
Qed.

Lemma first_fit_of_find s size l b : forall pv,
  find (fun c => size <=? load_size s c) l = Some b ->
  exists pv', first_fit s size pv l = Some (b, pv').
Proof.
  intros pv Hfind. rewrite <- (first_fit_find s size l pv) in Hfind.
  destruct (first_fit s size pv l) as [[b' pv'] |]; simpl in Hfind; [ | discriminate ].
  injection Hfind as ->. exists pv'. reflexivity.
Qed.

(** X16.  For an aligned request below 2^31 bytes, the block handed out on a hit
    has room for the request: its recorded size is the request itself
    when the block was split, and its old size otherwise. *)
Theorem tumalloc_block_covers_request
    (fuel : nat) (s : state) (l : list Z) (b n : Z) :
  chain s (search_start s) l -> (length l < fuel)%nat ->
  find (fun c => align_up n <=? load_size s c) l = Some b ->
  align_up n < 2 ^ 31 ->
  0 <= b < 2 ^ 64 -> load_size s b < 2 ^ 64 ->
  exists s',
    tumalloc fuel s n = Ret (ptr_add b header_size, s') /\
    align_up n <= load_size s' b <= load_size s b /\
    (align_up n + header_size < load_size s b -> load_size s' b = align_up n) /\
    (load_size s b <= align_up n + header_size -> load_size s' b = load_size s b).
Proof.
  intros Hc Hf Hfind Hreq Hb Hmax.
  pose proof (align_up_nonneg n) as Hnn.
  destruct (first_fit_of_find s _ l b NULL Hfind) as (pv & Hff).
  apply find_some in Hfind as [_ Hfit]. apply Z.leb_le in Hfit.
  rewrite (tumalloc_on_chain fuel s l n Hc Hf), Hff.
  destruct (take_block_result s (align_up n) b pv) as (Hp & _).
  assert (Hsplit : align_up n + header_size < load_size s b ->
                   load_size (snd (take_block s (align_up n) b pv)) b = align_up n).
  { intros Hbig.
    rewrite (take_block_size_split s _ b pv Hb Hnn Hbig Hmax)
      by (rewrite to_int_small; lia).
    apply to_int_small. lia. }
  assert (Hwhole : load_size s b <= align_up n + header_size ->
                   load_size (snd (take_block s (align_up n) b pv)) b = load_size s b).
  { intros Hsmall. apply take_block_size_whole; unfold header_size in *; lia. }
  destruct (take_block s (align_up n) b pv) as [p s']. simpl in *. subst p.
  exists s'. split; [ reflexivity | ].
  split; [ | split; assumption ].
  destruct (Z.lt_ge_cases (align_up n + header_size) (load_size s b)) as [Hbig | Hsmall].
  - rewrite (Hsplit Hbig). unfold header_size in *. lia.
  - rewrite (Hwhole ltac:(lia)). lia.
Qed.

Lemma tumalloc_block_covers_request_witness :
  exists s',
    tumalloc 2 one_free_block 10 = Ret (ptr_add 4096 header_size, s') /\
    align_up 10 <= load_size s' 4096 <= load_size one_free_block 4096 /\
    (align_up 10 + header_size < load_size one_free_block 4096 ->
     load_size s' 4096 = align_up 10) /\
    (load_size one_free_block 4096 <= align_up 10 + header_size ->
     load_size s' 4096 = load_size one_free_block 4096).
Proof.
  apply (tumalloc_block_covers_request 2 one_free_block [4096] 4096 10).
  - vm_compute. repeat split. discriminate.
  - simpl. lia.
  - reflexivity.
  - vm_compute. reflexivity.
  - lia.
  - vm_compute. reflexivity.
Defined.

(** X17.  [split] takes its size as an [int].  For an aligned request of 2^32
    bytes or more whose conversion to [int] is not negative, a hit on a
    block larger than the request plus a header shrinks that block to the
    converted value, which is less than the request. *)
Theorem tumalloc_truncates_large_request
    (fuel : nat) (s : state) (l : list Z) (b n : Z) :
  chain s (search_start s) l -> (length l < fuel)%nat ->
  find (fun c => align_up n <=? load_size s c) l = Some b ->
  2 ^ 32 <= align_up n -> 0 <= to_int (align_up n) ->
  align_up n + header_size < load_size s b ->
  0 <= b < 2 ^ 64 -> load_size s b < 2 ^ 64 ->
  exists s',
    tumalloc fuel s n = Ret (ptr_add b header_size, s') /\
    load_size s' b = to_int (align_up n) /\
    load_size s' b < align_up n.
Proof.
  intros Hc Hf Hfind Hbig Hint Hroom Hb Hmax.
  pose proof (align_up_nonneg n) as Hnn.
  destruct (first_fit_of_find s _ l b NULL Hfind) as (pv & Hff).
  rewrite (tumalloc_on_chain fuel s l n Hc Hf), Hff.
  destruct (take_block_result s (align_up n) b pv) as (Hp & _).
  pose proof (take_block_size_split s _ b pv Hb Hnn Hroom Hmax Hint) as Hsz.
  destruct (to_int_bounds (align_up n) Hnn) as [_ Hlt].
  destruct (take_block s (align_up n) b pv) as [p s']. simpl in *. subst p.
  exists s'. split; [ reflexivity | ]. split; [ exact Hsz | lia ].
Qed.

Lemma tumalloc_truncates_large_request_witness :
  exists s',
    tumalloc 2 huge_free_block (2 ^ 32 + 16) = Ret (ptr_add 4096 header_size, s') /\
    load_size s' 4096 = to_int (align_up (2 ^ 32 + 16)) /\
    load_size s' 4096 < align_up (2 ^ 32 + 16).
Proof.
  apply (tumalloc_truncates_large_request 2 huge_free_block [4096] 4096 (2 ^ 32 + 16)).
  - vm_compute. repeat split. discriminate.
  - simpl. lia.
  - reflexivity.
  - vm_compute. discriminate.
  - vm_compute. discriminate.
  - vm_compute. reflexivity.
  - lia.
  - vm_compute. reflexivity.
Defined.

(** ** [tumalloc]: fresh memory *)

Lemma extend_granted (s : state) (r : Z) :
  0 <= program_break s -> 0 <= r ->
  program_break s + r + header_size <= break_limit s ->
  break_limit s < 2 ^ 63 ->
  extend s r
    = (program_break s + header_size,
       set_next_fit_ptr
         (store_next
            (store_size (set_program_break s (program_break s + r + header_size))
                        (program_break s) r)
            (program_break s) (HEAD s))
         NULL).
Proof.
  intros Hb Hr Hroom Hlim. unfold extend.
  destruct (sbrk_granted s r Hb Hr Hroom Hlim) as [-> Hok].
  destruct (Z.eqb_spec (program_break s) SBRK_FAILED) as [Hbad | _]; [ contradiction | ].
  rewrite ptr_add_small by (unfold header_size in *; lia).
  reflexivity.
Qed.

Lemma tumalloc_empty_list (fuel : nat) (s : state) (n : Z) :
  HEAD s = NULL -> next_fit_ptr s = NULL ->
  tumalloc (S fuel) s n = Ret (extend s (align_up n)).
Proof.
  intros Hh Hc. unfold tumalloc, search_start. rewrite Hc, Hh. reflexivity.
Qed.

(** X18.  On an empty free list, two allocations in a row that the OS grants
    return payloads that do not overlap: the second block's header starts
    exactly where the first payload ends, and both headers keep their
    sizes. *)
Theorem successive_allocations_are_disjoint
    (fuel : nat) (s : state) (n1 n2 : Z) :
  HEAD s = NULL -> next_fit_ptr s = NULL ->
  0 <= program_break s ->
  program_break s + align_up n1 + header_size + align_up n2 + header_size
    <= break_limit s ->
  break_limit s < 2 ^ 63 ->
  exists s1 s2,
    tumalloc (S fuel) s n1 = Ret (program_break s + header_size, s1) /\
    tumalloc (S fuel) s1 n2
      = Ret (program_break s + header_size + align_up n1 + header_size, s2) /\
    load_size s2 (program_break s) = align_up n1 /\
    load_size s2 (program_break s + header_size + align_up n1) = align_up n2 /\
    HEAD s2 = NULL.
Proof.
  intros Hh Hc Hb Hroom Hlim.
  pose proof (align_up_nonneg n1) as H1. pose proof (align_up_nonneg n2) as H2.
  set (brk := program_break s) in *.
  set (s1 := set_next_fit_ptr
               (store_next
                  (store_size (set_program_break s (brk + align_up n1 + header_size))
                              brk (align_up n1))
                  brk (HEAD s))
               NULL).
  assert (Hrun1 : tumalloc (S fuel) s n1 = Ret (brk + header_size, s1)).
  { rewrite (tumalloc_empty_list fuel s n1 Hh Hc).
    rewrite (extend_granted s (align_up n1) Hb H1) by (unfold header_size in *; lia).
    reflexivity. }
  assert (Hext2 : extend s1 (align_up n2)
                  = (program_break s1 + header_size,
                     set_next_fit_ptr
                       (store_next
                          (store_size
                             (set_program_break s1
                                (program_break s1 + align_up n2 + header_size))
                             (program_break s1) (align_up n2))
                          (program_break s1) (HEAD s1))
                       NULL)).
  { apply extend_granted; simpl; unfold header_size in *; lia. }
  exists s1, (snd (extend s1 (align_up n2))).
  split; [ exact Hrun1 | ].
  split.
  { rewrite (tumalloc_empty_list fuel s1 n2 Hh eq_refl), Hext2. simpl.
    f_equal. f_equal. unfold header_size. lia. }
  rewrite Hext2. simpl snd. simpl program_break. unfold s1. loads.
  unfold header_size in *.
  destruct (decide (brk + align_up n1 + 16 = brk)) as [Heq | _]; [ lia | ].
  destruct (decide (brk = brk)) as [_ | Hne]; [ | congruence ].
  destruct (decide (brk + align_up n1 + 16 = brk + 16 + align_up n1))
    as [_ | Hne]; [ | lia ].
  split; [ reflexivity | ]. split; [ reflexivity | exact Hh ].
Qed.

Lemma successive_allocations_are_disjoint_witness :
  exists s1 s2,
    tumalloc 1 (initial_state 4096 65536) 10 = Ret (4096 + header_size, s1) /\
    tumalloc 1 s1 40
      = Ret (4096 + header_size + align_up 10 + header_size, s2) /\
    load_size s2 4096 = align_up 10 /\
    load_size s2 (4096 + header_size + align_up 10) = align_up 40 /\
    HEAD s2 = NULL.
Proof.
  apply (successive_allocations_are_disjoint 0 (initial_state 4096 65536) 10 40).
  - reflexivity.
  - reflexivity.
  - vm_compute. discriminate.
  - vm_compute. discriminate.
  - vm_compute. reflexivity.
Defined.

(** ** [turealloc]: refusal *)

(** X21.  When the block behind [ptr] is too small, no free block fits and the
    OS refuses more memory, [turealloc] returns [NULL] and leaves the
    allocator state, hence the old block and its contents, untouched. *)
Theorem turealloc_refused
    (fuel : nat) (s : state) (l : list Z) (ptr new_size : Z) :
  ptr <> NULL ->
  load_size s (ptr_add ptr (- header_size)) < new_size ->
  chain s (search_start s) l -> (length l < fuel)%nat ->
  Forall (fun b => load_size s b < align_up new_size) l ->
  align_up new_size + header_size < 2 ^ 63 ->
  break_limit s < program_break s + align_up new_size + header_size ->
  turealloc fuel s ptr new_size = Ret (NULL, s).
Proof.
  intros Hptr Hsmall Hc Hf Hnone Hreq Hover. unfold turealloc.
  destruct (Z.eqb_spec ptr NULL) as [Hz | _]; [ contradiction | ].
  destruct (Z.leb_spec new_size (load_size s (ptr_add ptr (- header_size))))
    as [Hle | _]; [ lia | ].
  rewrite (tumalloc_on_chain fuel s l new_size Hc Hf), (first_fit_none s _ l NULL Hnone).
  unfold extend.
  rewrite (sbrk_refused s (align_up new_size) (align_up_nonneg new_size) Hreq Hover).
  reflexivity.
Qed.

Lemma turealloc_refused_witness :
  turealloc 4 three_free_blocks 4112 60000 = Ret (NULL, three_free_blocks).
Proof.
  apply (turealloc_refused 4 three_free_blocks [4096; 4200; 4400] 4112 60000).
  - discriminate.
  - vm_compute. reflexivity.
  - vm_compute. repeat split; discriminate.
  - simpl. lia.
  - repeat constructor.
  - vm_compute. reflexivity.
  - vm_compute. reflexivity.
Defined.

(** ** Bytes and header fields *)

Ltac byte_index k :=
  let H := fresh in
  assert (H : k = 0 \/ k = 1 \/ k = 2 \/ k = 3 \/ k = 4 \/ k = 5 \/ k = 6 \/ k = 7)
    by lia;
  destruct H as [-> | [-> | [-> | [-> | [-> | [-> | [-> | ->]]]]]]].

Ltac powers :=
  repeat match goal with
         | |- context [256 ^ ?n] =>
             let c := eval vm_compute in (256 ^ n) in change (256 ^ n) with c
         end.

Lemma field_byte_set_same (v k b : Z) :
  0 <= k < 8 -> 0 <= b < 256 -> field_byte (set_field_byte v k b) k = b.
Proof.
  intros Hk Hb. unfold set_field_byte, field_byte.
  byte_index k; powers; Z.to_euclidean_division_equations; lia.
Qed.

Lemma field_byte_set_other (v k k' b : Z) :
  0 <= k < 8 -> 0 <= k' < 8 -> k <> k' -> 0 <= b < 256 ->
  field_byte (set_field_byte v k b) k' = field_byte v k'.
Proof.
  intros Hk Hk' Hne Hb. unfold set_field_byte, field_byte.
  byte_index k; byte_index k'; try congruence; powers;
    Z.to_euclidean_division_equations; lia.
Qed.

Lemma ptr_add_inj_l (a a' c : Z) :
  0 <= a < 2 ^ 64 -> 0 <= a' < 2 ^ 64 -> ptr_add a c = ptr_add a' c -> a = a'.
Proof.
  intros Ha Ha' Heq. unfold ptr_add in Heq.
  assert (Hz : (a + c - (a' + c)) mod 2 ^ 64 = 0).
  { rewrite Zminus_mod, Heq, Z.sub_diag. reflexivity. }
  replace (a + c - (a' + c)) with (a - a') in Hz by lia.
  apply Z.mod_divide in Hz; [ | lia ].
  destruct Hz as [k Hk]. lia.
Qed.

Lemma ptr_add_inj (p i j : Z) :
  0 <= i < 2 ^ 64 -> 0 <= j < 2 ^ 64 -> ptr_add p j = ptr_add p i -> j = i.
Proof.
  intros Hi Hj Heq. unfold ptr_add in Heq.
  assert (Hz : (p + j - (p + i)) mod 2 ^ 64 = 0).
  { rewrite Zminus_mod, Heq, Z.sub_diag. reflexivity. }
  replace (p + j - (p + i)) with (j - i) in Hz by lia.
  apply Z.mod_divide in Hz; [ | lia ].
  destruct Hz as [k Hk]. lia.
Qed.

Lemma field_owner_inj (a off k k' : Z) :
  0 <= k < 8 -> 0 <= k' < 8 -> field_owner a off k = field_owner a off k' -> k = k'.
Proof.
  intros Hk Hk' Heq. unfold field_owner, ptr_add in Heq.
  assert (Hz : (a + - (off + k) - (a + - (off + k'))) mod 2 ^ 64 = 0).
  { rewrite Zminus_mod, Heq, Z.sub_diag. reflexivity. }
  replace (a + - (off + k) - (a + - (off + k'))) with (k' - k) in Hz by lia.
  apply Z.mod_divide in Hz; [ | lia ].
  destruct Hz as [q Hq]. lia.
Qed.

Lemma patched_cons (a off b h k : Z) (ks : list Z) (v : Z) :
  patched a off b h (k :: ks) v
  = patched a off b h ks
      (if decide (field_owner a off k = h) then set_field_byte v k b else v).
Proof. reflexivity. Qed.

Lemma patch_fields_fold (a off b h : Z) (ks : list Z) : forall (m : gmap Z Z),
  foldl (fun m' k => alter (fun v => set_field_byte v k b) (field_owner a off k) m') m ks
    !! h
  = patched a off b h ks <$> m !! h.
Proof.
  induction ks as [| k ks IH]; intros m.
  - simpl. destruct (m !! h); reflexivity.
  - cbn [foldl]. rewrite IH, lookup_alter.
    destruct (decide (field_owner a off k = h)) as [Hhit | Hmiss].
    + rewrite Hhit. destruct (m !! h) as [v |]; [ | reflexivity ].
      cbn [fmap option_fmap option_map]. rewrite patched_cons.
      destruct (decide (field_owner a off k = h)); [ reflexivity | contradiction ].
    + destruct (m !! h) as [v |]; [ | reflexivity ].
      cbn [fmap option_fmap option_map]. rewrite patched_cons.
      destruct (decide (field_owner a off k = h)); [ contradiction | reflexivity ].
Qed.

Lemma patch_fields_lookup (m : gmap Z Z) (a off b h : Z) :
  patch_fields m a off b !! h = patched a off b h (seqZ 0 8) <$> m !! h.
Proof. apply patch_fields_fold. Qed.

Lemma patched_keeps (a off b h k : Z) (ks : list Z) : forall v,
  0 <= k < 8 -> 0 <= b < 256 ->
  (forall k', In k' ks -> 0 <= k' < 8) ->
  (forall k', In k' ks -> field_owner a off k' = h -> k' <> k) ->
  field_byte (patched a off b h ks v) k = field_byte v k.
Proof.
  induction ks as [| k' ks IH]; intros v Hk Hb Hrange Hother; [ reflexivity | ].
  rewrite patched_cons.
  rewrite IH; try assumption.
  - destruct (decide (field_owner a off k' = h)) as [Hhit | _]; [ | reflexivity ].
    apply field_byte_set_other; try assumption.
    + apply Hrange. left. reflexivity.
    + exact (Hother k' (or_introl eq_refl) Hhit).
  - intros j Hj. apply Hrange. right. exact Hj.
  - intros j Hj. apply Hother. right. exact Hj.
Qed.

Lemma patched_sets (a off b h k : Z) (ks : list Z) : forall v,
  0 <= k < 8 -> 0 <= b < 256 ->
  field_owner a off k = h ->
  (forall k', In k' ks -> 0 <= k' < 8) ->
  In k ks \/ field_byte v k = b ->
  field_byte (patched a off b h ks v) k = b.
Proof.
  induction ks as [| k' ks IH]; intros v Hk Hb Hown Hrange H.
  - destruct H as [[] | H]. exact H.
  - rewrite patched_cons.
    assert (Hk' : 0 <= k' < 8) by (apply Hrange; left; reflexivity).
    apply IH; try assumption.
    + intros j Hj. apply Hrange. right. exact Hj.
    + destruct (decide (field_owner a off k' = h)) as [Hhit | Hmiss].
      * assert (k' = k).
        { apply (field_owner_inj a off); try assumption. congruence. }
        subst k'. right. apply field_byte_set_same; assumption.
      * destruct H as [[-> | Hin] | Hv].
        -- contradiction.
        -- left. exact Hin.
        -- right. exact Hv.
Qed.

Lemma seqZ_8_range (k : Z) : In k (seqZ 0 8) <-> 0 <= k < 8.
Proof. rewrite <- list_elem_of_In, elem_of_seqZ. lia. Qed.

(** How the byte seen through recorded fields follows a change of the map. *)
Lemma field_view_fmap (phi : Z -> Z) (m m' : gmap Z Z) (a off : Z) :
  (forall k, 0 <= k < 8 ->
     exists g, m' !! field_owner a off k = g <$> m !! field_owner a off k /\
               forall v, field_byte (g v) k = phi (field_byte v k)) ->
  field_view m' a off = phi <$> field_view m a off.
Proof.
  intros H. unfold field_view.
  assert (Hall : forall k, In k (seqZ 0 8) -> 0 <= k < 8) by (intros k; apply seqZ_8_range).
  induction (seqZ 0 8) as [| k ks IH]; simpl; [ reflexivity | ].
  destruct (H k (Hall k (or_introl eq_refl))) as (g & Hlook & Hbyte).
  rewrite Hlook.
  destruct (m !! field_owner a off k) as [v |]; simpl.
  - rewrite Hbyte. reflexivity.
  - apply IH. intros j Hj. apply Hall. right. exact Hj.
Qed.

Lemma field_view_patch_same (m : gmap Z Z) (a off b : Z) :
  0 <= b < 256 ->
  field_view (patch_fields m a off b) a off = (fun _ => b) <$> field_view m a off.
Proof.
  intros Hb. apply field_view_fmap. intros k Hk.
  exists (patched a off b (field_owner a off k) (seqZ 0 8)).
  split; [ apply patch_fields_lookup | ].
  intros v. apply patched_sets; try assumption; try reflexivity.
  - intros j. apply seqZ_8_range.
  - left. apply seqZ_8_range. exact Hk.
Qed.

Lemma field_view_patch_other (m : gmap Z Z) (a a' off b : Z) :
  0 <= a < 2 ^ 64 -> 0 <= a' < 2 ^ 64 -> a <> a' -> 0 <= b < 256 ->
  field_view (patch_fields m a off b) a' off = field_view m a' off.
Proof.
  intros Ha Ha' Hne Hb.
  rewrite (field_view_fmap (fun x => x) m (patch_fields m a off b) a' off).
  - destruct (field_view m a' off); reflexivity.
  - intros k Hk.
    exists (patched a off b (field_owner a' off k) (seqZ 0 8)).
    split; [ apply patch_fields_lookup | ].
    intros v. apply patched_keeps; try assumption.
    + intros j. apply seqZ_8_range.
    + intros j _ Hown -> . apply Hne.
      unfold field_owner in Hown.
      exact (ptr_add_inj_l a a' _ Ha Ha' Hown).
Qed.

(** A byte written at [a] is the byte then found at [a]; the bytes found
    elsewhere are unchanged. *)
Lemma byte_of_write_byte (s : state) (a a' b : Z) :
  0 <= a < 2 ^ 64 -> 0 <= a' < 2 ^ 64 -> 0 <= b < 256 ->
  byte_of (write_byte s a b) a' = if decide (a = a') then b else byte_of s a'.
Proof.
  intros Ha Ha' Hb. unfold byte_of, write_byte, load_byte. simpl.
  destruct (decide (a = a')) as [<- | Hne].
  - rewrite !field_view_patch_same by assumption.
    rewrite lookup_insert_eq.
    destruct (field_view (size_of s) a size_offset); simpl; [ reflexivity | ].
    destruct (field_view (next_of s) a next_offset); simpl; [ reflexivity | ].
    apply Z.mod_small. exact Hb.
  - rewrite !field_view_patch_other by assumption.
    rewrite lookup_insert_ne by assumption. reflexivity.
Qed.

Lemma patched_id (a off b h : Z) (ks : list Z) (v : Z) :
  (forall k, In k ks -> field_owner a off k <> h) -> patched a off b h ks v = v.
Proof.
  revert v. induction ks as [| k ks IH]; intros v Hmiss; [ reflexivity | ].
  rewrite patched_cons.
  destruct (decide (field_owner a off k = h)) as [Hhit | _].
  - exfalso. exact (Hmiss k (or_introl eq_refl) Hhit).
  - apply IH. intros j Hj. apply Hmiss. right. exact Hj.
Qed.

Lemma field_owner_outside (a off k h : Z) :
  0 <= a < 2 ^ 64 -> 0 <= off <= 8 -> 0 <= k < 8 ->
  0 <= h -> h + header_size <= 2 ^ 64 ->
  a < h \/ h + header_size <= a ->
  field_owner a off k <> h.
Proof.
  intros Ha Hoff Hk Hh Hfit Hout. unfold field_owner, ptr_add, header_size in *.
  destruct (Z.lt_ge_cases (a + - (off + k)) 0) as [Hneg | Hpos].
  - assert (Hw : (a + - (off + k)) mod 2 ^ 64 = a + - (off + k) + 2 ^ 64).
    { symmetry. apply (Z.mod_unique _ _ (-1)); lia. }
    lia.
  - rewrite Z.mod_small by lia. lia.
Qed.

(** A byte written outside a header leaves the header's fields alone. *)
Lemma load_write_byte_outside (s : state) (a b h : Z) :
  0 <= a < 2 ^ 64 -> 0 <= h -> h + header_size <= 2 ^ 64 ->
  a < h \/ h + header_size <= a ->
  load_size (write_byte s a b) h = load_size s h /\
  load_next (write_byte s a b) h = load_next s h.
Proof.
  intros Ha Hh Hfit Hout. unfold load_size, load_next, write_byte. simpl.
  rewrite !patch_fields_lookup.
  assert (Hid : forall off v, 0 <= off <= 8 -> patched a off b h (seqZ 0 8) v = v).
  { intros off v Hoff. apply patched_id. intros k Hk.
    apply field_owner_outside; try assumption. apply seqZ_8_range. exact Hk. }
  split.
  - destruct (size_of s !! h) as [v |]; [ | reflexivity ].
    cbn [fmap option_fmap option_map default]. apply Hid. unfold size_offset. lia.
  - destruct (next_of s !! h) as [v |]; [ | reflexivity ].
    cbn [fmap option_fmap option_map default]. apply Hid. unfold next_offset. lia.
Qed.

Lemma field_view_range (m : gmap Z Z) (a off x : Z) :
  field_view m a off = Some x -> 0 <= x < 256.
Proof.
  unfold field_view. induction (seqZ 0 8) as [| k ks IH]; simpl; [ discriminate | ].
  destruct (m !! field_owner a off k) as [v |]; [ | exact IH ].
  intros [= <-]. unfold field_byte. apply Z.mod_pos_bound. lia.
Qed.

Lemma byte_of_range (s : state) (a : Z) : 0 <= byte_of s a < 256.
Proof.
  unfold byte_of.
  destruct (field_view (size_of s) a size_offset) as [x |] eqn:H1;
    [ exact (field_view_range _ _ _ _ H1) | ].
  destruct (field_view (next_of s) a next_offset) as [x |] eqn:H2;
    [ exact (field_view_range _ _ _ _ H2) | ].
  apply Z.mod_pos_bound. lia.
Qed.

Lemma ptr_add_range (p i : Z) : 0 <= ptr_add p i < 2 ^ 64.
Proof. unfold ptr_add. apply Z.mod_pos_bound. lia. Qed.

(** *** A run of byte writes *)

Section ByteRun.

Variable dst : Z.
Variable val : Z -> Z.
Hypothesis val_range : forall i, 0 <= val i < 256.

Let step (st : state) (i : Z) : state := write_byte st (ptr_add dst i) (val i).

Lemma byte_run_value (l : list Z) : forall (st : state) (i : Z),
  (forall j, In j l -> ptr_add dst j = ptr_add dst i -> j = i) ->
  In i l \/ byte_of st (ptr_add dst i) = val i ->
  byte_of (foldl step st l) (ptr_add dst i) = val i.
Proof.
  induction l as [| j l IH]; intros st i Hinj H; simpl.
  - destruct H as [[] | H]; exact H.
  - apply IH.
    + intros k Hk. apply Hinj. right. exact Hk.
    + unfold step.
      rewrite byte_of_write_byte by (try apply ptr_add_range; apply val_range).
      destruct (decide (ptr_add dst j = ptr_add dst i)) as [Heq | Hne].
      * right. rewrite (Hinj j (or_introl eq_refl) Heq). reflexivity.
      * destruct H as [[Hj | Hin] | Hs].
        -- subst j. contradiction.
        -- left. exact Hin.
        -- right. exact Hs.
Qed.

Lemma byte_run_statics (l : list Z) : forall (st : state),
  HEAD (foldl step st l) = HEAD st /\
  next_fit_ptr (foldl step st l) = next_fit_ptr st /\
  program_break (foldl step st l) = program_break st /\
  break_limit (foldl step st l) = break_limit st.
Proof.
  induction l as [| j l IH]; intros st; simpl; [ repeat split | ].
  destruct (IH (step st j)) as (H1 & H2 & H3 & H4).
  rewrite H1, H2, H3, H4. repeat split.
Qed.

Lemma byte_run_headers (l : list Z) (h : Z) : forall (st : state),
  0 <= h -> h + header_size <= 2 ^ 64 ->
  (forall j, In j l -> ptr_add dst j < h \/ h + header_size <= ptr_add dst j) ->
  load_size (foldl step st l) h = load_size st h /\
  load_next (foldl step st l) h = load_next st h.
Proof.
  induction l as [| j l IH]; intros st Hh Hfit Hout; simpl; [ split; reflexivity | ].
  destruct (IH (step st j) Hh Hfit) as [H1 H2].
  { intros k Hk. apply Hout. right. exact Hk. }
  rewrite H1, H2. unfold step.
  apply load_write_byte_outside; try assumption.
  - apply ptr_add_range.
  - apply Hout. left. reflexivity.
Qed.

End ByteRun.

Lemma memset_in_arena (p v : Z) (l : list Z) : forall (st : state),
  (forall i, In i l -> in_arena st (ptr_add p i) = true) ->
  foldl (fun r i =>
           st' ← r;
           if in_arena st' (ptr_add p i)
           then Ret (write_byte st' (ptr_add p i) v)
           else Fault OutOfArena)
        (Ret st) l
  = Ret (foldl (fun st' i => write_byte st' (ptr_add p i) v) st l).
Proof.
  induction l as [| i l IH]; intros st Hin; [ reflexivity | ].
  cbn [foldl]. cbn [mbind result_bind].
  rewrite (Hin i (or_introl eq_refl)).
  apply IH. intros j Hj. apply (Hin j). right. exact Hj.
Qed.

Lemma memcpy_in_arena (s0 : state) (dst src : Z) (l : list Z) : forall (st : state),
  (forall i, In i l ->
     in_arena st (ptr_add src i) = true /\ in_arena st (ptr_add dst i) = true) ->
  foldl (fun r i =>
           st' ← r;
           if in_arena st' (ptr_add src i) && in_arena st' (ptr_add dst i)
           then Ret (write_byte st' (ptr_add dst i) (byte_of s0 (ptr_add src i)))
           else Fault OutOfArena)
        (Ret st) l
  = Ret (foldl (fun st' i => write_byte st' (ptr_add dst i) (byte_of s0 (ptr_add src i)))
               st l).
Proof.
  induction l as [| i l IH]; intros st Hin; [ reflexivity | ].
  cbn [foldl]. cbn [mbind result_bind].
  destruct (Hin i (or_introl eq_refl)) as [-> ->]. cbn [andb].
  apply IH. intros j Hj. apply (Hin j). right. exact Hj.
Qed.

Lemma in_arena_range (s : state) (p n i : Z) :
  0 <= p -> p + n <= program_break s -> program_break s <= 2 ^ 64 ->
  0 <= i < n ->
  ptr_add p i = p + i /\ in_arena s (ptr_add p i) = true.
Proof.
  intros Hp Hn Hb Hi.
  assert (Heq : ptr_add p i = p + i) by (apply ptr_add_small; lia).
  split; [ exact Heq | ].
  rewrite Heq. unfold in_arena.
  destruct (Z.leb_spec 0 (p + i)); [ | lia ].
  destruct (Z.ltb_spec (p + i) (program_break s)); [ reflexivity | lia ].
Qed.

(** ** [tucalloc] with a non-zero element size *)

(** X19.  For a non-zero element size, [tucalloc] returns [NULL] without
    touching the state exactly when the product exceeds [SIZE_MAX];
    otherwise it passes on a [NULL] from [tumalloc], and for a non-[NULL]
    pointer whose [count * size] bytes lie below the program break it
    returns that pointer with every one of these bytes zero.  [HEAD], the
    cursor, the break and every header that lies outside the zeroed bytes
    are as [tumalloc] left them. *)
Theorem tucalloc_nonzero_size (fuel : nat) (s : state) (num size : Z) :
  0 <= num <= SIZE_MAX -> 0 < size <= SIZE_MAX ->
  (SIZE_MAX < num * size -> tucalloc fuel s num size = Ret (NULL, s)) /\
  (num * size <= SIZE_MAX ->
   forall p s1, tumalloc fuel s (num * size) = Ret (p, s1) ->
     (p = NULL -> tucalloc fuel s num size = Ret (NULL, s1)) /\
     (p <> NULL -> 0 <= p ->
      p + num * size <= program_break s1 -> program_break s1 <= 2 ^ 64 ->
      exists s2, tucalloc fuel s num size = Ret (p, s2) /\
        HEAD s2 = HEAD s1 /\ next_fit_ptr s2 = next_fit_ptr s1 /\
        program_break s2 = program_break s1 /\
        (forall i, 0 <= i < num * size -> byte_of s2 (p + i) = 0) /\
        (forall h, 0 <= h -> h + header_size <= 2 ^ 64 ->
           h + header_size <= p \/ p + num * size <= h ->
           load_size s2 h = load_size s1 h /\ load_next s2 h = load_next s1 h))).
Proof.
  intros Hnum Hsize. unfold tucalloc, c_div.
  destruct (Z.eqb_spec size 0) as [Hz | _]; [ lia | ]. cbn [mbind result_bind].
  assert (Hguard : SIZE_MAX / size < num <-> SIZE_MAX < num * size).
  { split; intros H.
    - pose proof (Z.div_mod SIZE_MAX size ltac:(lia)) as Hdm.
      pose proof (Z.mod_pos_bound SIZE_MAX size ltac:(lia)) as Hmb.
      nia.
    - apply Z.div_lt_upper_bound; [ lia | ]. rewrite Z.mul_comm. exact H. }
  split.
  - intros Hov. apply Hguard in Hov.
    destruct (Z.ltb_spec (SIZE_MAX / size) num); [ reflexivity | lia ].
  - intros Hfit p s1 Hm.
    destruct (Z.ltb_spec (SIZE_MAX / size) num) as [Hlt | _]; [ apply Hguard in Hlt; lia | ].
    rewrite (size_t_small (num * size)) by (unfold SIZE_MAX in *; nia).
    rewrite Hm. cbn [mbind result_bind].
    split.
    + intros ->. reflexivity.
    + intros Hp Hp0 Hend Hbrk.
      destruct (Z.eqb_spec p NULL) as [Hnull | _]; [ contradiction | ].
      set (n := num * size) in *.
      assert (Hin : forall i, In i (seqZ 0 n) ->
                      ptr_add p i = p + i /\ in_arena s1 (ptr_add p i) = true).
      { intros i Hi. apply list_elem_of_In, elem_of_seqZ in Hi.
        apply (in_arena_range s1 p n i); lia. }
      unfold memset.
      rewrite (memset_in_arena p (0 mod 256) (seqZ 0 n) s1)
        by (intros i Hi; apply (Hin i Hi)).
      cbn [mbind result_bind]. eexists. split; [ reflexivity | ].
      assert (Hval : forall i : Z, 0 <= (fun _ : Z => 0 mod 256) i < 256)
        by (intros _; change (0 mod 256) with 0; lia).
      destruct (byte_run_statics p (fun _ => 0 mod 256) (seqZ 0 n) s1)
        as (H1 & H2 & H3 & _).
      split; [ exact H1 | ]. split; [ exact H2 | ]. split; [ exact H3 | ].
      split.
      * intros i Hi.
        assert (Hil : In i (seqZ 0 n)) by (apply list_elem_of_In, elem_of_seqZ; lia).
        destruct (Hin i Hil) as [Heq _]. rewrite <- Heq.
        apply (byte_run_value p (fun _ => 0 mod 256) Hval (seqZ 0 n) s1 i).
        -- intros j Hj Hsame. destruct (Hin j Hj) as [Hj' _]. lia.
        -- left. exact Hil.
      * intros h Hh Hfit' Hout.
        apply (byte_run_headers p (fun _ => 0 mod 256) (seqZ 0 n) h s1 Hh Hfit').
        intros j Hj. destruct (Hin j Hj) as [Hj' _]. rewrite Hj'.
        apply list_elem_of_In, elem_of_seqZ in Hj. lia.
Qed.

Lemma tucalloc_nonzero_size_witness :
  exists s2,
    tucalloc 1 (initial_state 4096 65536) 4 8 = Ret (4112, s2) /\
    HEAD s2 = NULL /\
    (forall i, 0 <= i < 4 * 8 -> byte_of s2 (4112 + i) = 0) /\
    load_size s2 4096 = 32.
Proof.
  assert (H1 : 0 <= 4 <= SIZE_MAX) by (vm_compute; split; discriminate).
  assert (H2 : 0 < 8 <= SIZE_MAX) by (vm_compute; split; [ reflexivity | discriminate ]).
  destruct (tucalloc_nonzero_size 1 (initial_state 4096 65536) 4 8 H1 H2) as [_ Hfit].
  assert (H3 : 4 * 8 <= SIZE_MAX) by (vm_compute; discriminate).
  destruct (Hfit H3 4112 (snd (extend (initial_state 4096 65536) (align_up 32))))
    as [_ Hok]; [ vm_compute; reflexivity | ].
  destruct Hok as (s2 & Hrun & Hh & _ & _ & Hbytes & Hframe).
  - discriminate.
  - lia.
  - vm_compute. discriminate.
  - vm_compute. discriminate.
  - exists s2. split; [ exact Hrun | ]. split; [ exact Hh | ].
    split; [ exact Hbytes | ].
    destruct (Hframe 4096) as [Hsz _]; [ lia | vm_compute; discriminate | left; vm_compute; discriminate | ].
    rewrite Hsz. reflexivity.
Defined.

(** ** [turealloc]: moving a block *)

(** X20.  When the block behind [ptr] is too small and [tumalloc] delivers
    a new pointer, [turealloc] returns that pointer with the old block's
    payload copied to it, byte for byte over the old block's recorded
    size, provided source and destination lie below the program break and
    do not overlap.  [HEAD], the cursor and every header outside the
    destination bytes are as [tumalloc] left them: the old block is not
    put on the free list. *)
Theorem turealloc_moves_payload
    (fuel : nat) (s s1 : state) (ptr new_size q : Z) :
  ptr <> NULL ->
  load_size s (ptr_add ptr (- header_size)) < new_size ->
  tumalloc fuel s new_size = Ret (q, s1) ->
  q <> NULL ->
  0 <= ptr -> 0 <= q -> program_break s1 <= 2 ^ 64 ->
  ptr + load_size s1 (ptr_add ptr (- header_size)) <= program_break s1 ->
  q + load_size s1 (ptr_add ptr (- header_size)) <= program_break s1 ->
  q + load_size s1 (ptr_add ptr (- header_size)) <= ptr \/
  ptr + load_size s1 (ptr_add ptr (- header_size)) <= q ->
  exists s2,
    turealloc fuel s ptr new_size = Ret (q, s2) /\
    (forall i, 0 <= i < load_size s1 (ptr_add ptr (- header_size)) ->
       byte_of s2 (q + i) = byte_of s1 (ptr + i)) /\
    HEAD s2 = HEAD s1 /\ next_fit_ptr s2 = next_fit_ptr s1 /\
    (forall h, 0 <= h -> h + header_size <= 2 ^ 64 ->
       h + header_size <= q \/ q + load_size s1 (ptr_add ptr (- header_size)) <= h ->
       load_size s2 h = load_size s1 h /\ load_next s2 h = load_next s1 h).
Proof.
  intros Hptr Hsmall Hrun Hq Hp0 Hq0 Hbrk Hsrc Hdst _. unfold turealloc.
  destruct (Z.eqb_spec ptr NULL) as [Hz | _]; [ contradiction | ].
  destruct (Z.leb_spec new_size (load_size s (ptr_add ptr (- header_size))))
    as [Hle | _]; [ lia | ].
  rewrite Hrun. cbn [mbind result_bind].
  destruct (Z.eqb_spec q NULL) as [Hz | _]; [ contradiction | ].
  set (len := load_size s1 (ptr_add ptr (- header_size))) in *.
  assert (Hin : forall i, In i (seqZ 0 len) ->
                  (ptr_add ptr i = ptr + i /\ in_arena s1 (ptr_add ptr i) = true) /\
                  (ptr_add q i = q + i /\ in_arena s1 (ptr_add q i) = true)).
  { intros i Hi. apply list_elem_of_In, elem_of_seqZ in Hi.
    split; [ apply (in_arena_range s1 ptr len i) | apply (in_arena_range s1 q len i) ]; lia. }
  unfold memcpy.
  rewrite (memcpy_in_arena s1 q ptr (seqZ 0 len) s1)
    by (intros i Hi; destruct (Hin i Hi) as [[_ ?] [_ ?]]; split; assumption).
  cbn [mbind result_bind]. unfold tufree.
  eexists. split; [ reflexivity | ].
  pose (val := fun i => byte_of s1 (ptr_add ptr i)).
  assert (Hval : forall i, 0 <= val i < 256) by (intros i; apply byte_of_range).
  destruct (byte_run_statics q val (seqZ 0 len) s1) as (H1 & H2 & _).
  split; [ | split; [ exact H1 | split; [ exact H2 | ] ] ].
  - intros i Hi.
    assert (Hil : In i (seqZ 0 len)) by (apply list_elem_of_In, elem_of_seqZ; lia).
    destruct (Hin i Hil) as [[Hsrci _] [Hdsti _]].
    rewrite <- Hsrci, <- Hdsti.
    apply (byte_run_value q val Hval (seqZ 0 len) s1 i).
    + intros j Hj Hsame. destruct (Hin j Hj) as [_ [Hj' _]]. lia.
    + left. exact Hil.
  - intros h Hh Hfit Hout.
    apply (byte_run_headers q val (seqZ 0 len) h s1 Hh Hfit).
    intros j Hj. destruct (Hin j Hj) as [_ [Hj' _]]. rewrite Hj'.
    apply list_elem_of_In, elem_of_seqZ in Hj. lia.
Qed.

Lemma turealloc_moves_payload_witness :
  exists s2,
    turealloc 1 small_used_block 4112 100 = Ret (4144, s2) /\
    (forall i,
       0 <= i < load_size (snd (extend small_used_block (align_up 100)))
                          (ptr_add 4112 (- header_size)) ->
       byte_of s2 (4144 + i)
       = byte_of (snd (extend small_used_block (align_up 100))) (4112 + i)) /\
    HEAD s2 = HEAD (snd (extend small_used_block (align_up 100))) /\
    next_fit_ptr s2 = next_fit_ptr (snd (extend small_used_block (align_up 100))).
Proof.
  destruct (turealloc_moves_payload 1 small_used_block
              (snd (extend small_used_block (align_up 100))) 4112 100 4144)
    as (s2 & Hrun & Hbytes & Hh & Hc & _).
  - discriminate.
  - vm_compute. reflexivity.
  - vm_compute. reflexivity.
  - discriminate.
  - lia.
  - lia.
  - vm_compute. discriminate.
  - vm_compute. discriminate.
  - vm_compute. discriminate.
  - right. vm_compute. discriminate.
  - exists s2. split; [ exact Hrun | ]. split; [ exact Hbytes | ].
    split; [ exact Hh | exact Hc ].
Defined.

(** When [split]'s [int] parameter has cut the new block short, the copy
    runs over the remainder's header: after [tumalloc 64], [do_alloc 2^33]
    and a resize of the first block to 2^32 + 16 bytes, the new block has
    16 bytes, the remainder header sits at 4208, and the 64 copied bytes
    replace its size field. *)
Example turealloc_copy_overwrites_remainder_header :
  exists s1 s2 s3 s4,
    tumalloc 1 (initial_state 4096 (2 ^ 40)) 64 = Ret (4112, s1) /\
    do_alloc 2 s1 (2 ^ 33) = Ret (4192, s2) /\
    tumalloc 2 s2 (2 ^ 32 + 16) = Ret (4192, s3) /\
    load_size s3 4176 = 16 /\
    load_size s3 4208 = 2 ^ 33 - 32 /\
    turealloc 2 s2 4112 (2 ^ 32 + 16) = Ret (4192, s4) /\
    load_size s4 4208 = 0.
Proof.
  eexists _, _, _, _.
  split; [ vm_compute; reflexivity | ].
  split; [ vm_compute; reflexivity | ].
  split; [ vm_compute; reflexivity | ].
  split; [ reflexivity | ].
  split; [ reflexivity | ].
  split; [ vm_compute; reflexivity | ].
  reflexivity.
Qed.

Lemma fold_after_fault {A : Type} (f : result state -> A -> result state) (e : fault)
    (l : list A) :
  (forall x, f (Fault e) x = Fault e) -> foldl f (Fault e) l = Fault e.
Proof.
  intros Hf. induction l as [| x l IH]; [ reflexivity | ].
  cbn [foldl]. rewrite Hf. exact IH.
Qed.

Lemma memset_faults_at_start (s : state) (p c n : Z) :
  0 < n -> 0 <= p < 2 ^ 64 -> in_arena s p = false ->
  memset s p c n = Fault OutOfArena.
Proof.
  intros Hn Hp Hout. unfold memset.
  rewrite (seqZ_cons 0 n Hn). cbn [foldl]. cbn [mbind result_bind].
  rewrite (ptr_add_small p 0) by lia. rewrite Z.add_0_r, Hout.
  apply fold_after_fault. reflexivity.
Qed.

Lemma tucalloc_fill_outside_arena (fuel : nat) (s s1 : state) (num size p : Z) :
  0 <= num -> 0 < size -> 0 < num * size <= SIZE_MAX ->
  tumalloc fuel s (num * size) = Ret (p, s1) ->
  p <> NULL -> 0 <= p < 2 ^ 64 -> in_arena s1 p = false ->
  tucalloc fuel s num size = Fault OutOfArena.
Proof.
  intros Hnum Hsize Hprod Hrun Hp Hrange Hout. unfold tucalloc, c_div.
  destruct (Z.eqb_spec size 0) as [Hz | _]; [ lia | ]. cbn [mbind result_bind].
  destruct (Z.ltb_spec (SIZE_MAX / size) num) as [Hlt | _].
  - exfalso.
    pose proof (Z.div_mod SIZE_MAX size ltac:(lia)) as Hdm.
    pose proof (Z.mod_pos_bound SIZE_MAX size ltac:(lia)) as Hmb.
    nia.
  - rewrite (size_t_small (num * size)) by (unfold SIZE_MAX in *; lia).
    rewrite Hrun. cbn [mbind result_bind].
    destruct (Z.eqb_spec p NULL) as [Hnull | _]; [ contradiction | ].
    rewrite (memset_faults_at_start s1 p 0 (num * size)) by (lia || assumption).
    reflexivity.
Qed.

(** A request for [SIZE_MAX] bytes passes the overflow guard; the rounding
    turns it into a request for 0 bytes, the block carved for it ends at
    the break, and the zero-fill leaves the arena with its first byte. *)
Example tucalloc_size_max_leaves_arena :
  tucalloc 1 (initial_state 4096 65536) SIZE_MAX 1 = Fault OutOfArena.
Proof.
  apply (tucalloc_fill_outside_arena 1 (initial_state 4096 65536)
           (snd (extend (initial_state 4096 65536) 0)) SIZE_MAX 1 4112).
  - vm_compute. discriminate.
  - lia.
  - vm_compute. split; [ reflexivity | discriminate ].
  - vm_compute. reflexivity.
  - discriminate.
  - lia.
  - vm_compute. reflexivity.
Qed.
